(** * Placeholder-safe translation of locale documents

    A verification development for [scripts/translate_admin_locales.py]:
    the placeholder guard ([protect_placeholders], [restore_placeholders]),
    the tree translator ([translate_value]) and the command line driver
    ([main]).

    Python [str] values are modelled as [string], a sequence of
    characters; the characters the script tells apart (braces, newline,
    underscore, decimal digits and the letters of the marker) are all
    ASCII. *)

From Stdlib Require Import Ascii String Decimal DecimalString DecimalNat PrimFloat.
From stdpp Require Import gmap strings list fin_maps.

Local Open Scope string_scope.
Local Open Scope list_scope.
Local Open Scope stdpp_scope.

(* Let [simpl] compute appends of literals. *)
#[local] Arguments String.append !s1 s2 : simpl nomatch.

(** ** Strings *)

Module Str.

(** [text.startswith(p)] *)
Fixpoint starts_with (p s : string) : bool :=
  match p with
  | EmptyString => true
  | String a p' =>
      match s with
      | EmptyString => false
      | String b s' => if Ascii.eqb a b then starts_with p' s' else false
      end
  end.

(** [sub in s] *)
Fixpoint contains (sub s : string) : bool :=
  starts_with sub s ||
  match s with
  | EmptyString => false
  | String _ s' => contains sub s'
  end.

(** [c in s] for a single character *)
Fixpoint has_char (c : ascii) (s : string) : bool :=
  match s with
  | EmptyString => false
  | String b s' => Ascii.eqb c b || has_char c s'
  end.

(** [str(n)] for a non-negative integer: decimal digits, no leading zero. *)
Definition of_nat (n : nat) : string :=
  NilEmpty.string_of_uint (Nat.to_uint n).

Definition is_digit (c : ascii) : bool :=
  let n := nat_of_ascii c in (48 <=? n)%nat && (n <=? 57)%nat.

Fixpoint all_digits (s : string) : bool :=
  match s with
  | EmptyString => true
  | String c s' => is_digit c && all_digits s'
  end.

(** [new.join(pieces)] *)
Fixpoint join (sep : string) (pieces : list string) : string :=
  match pieces with
  | [] => ""
  | [p] => p
  | p :: rest => p +:+ sep +:+ join sep rest
  end.

(** [text.replace(old, new)] for a non-empty [old]: occurrences are found
    left to right and do not overlap.  [skip] counts the characters of an
    occurrence that are still to be consumed. *)
Fixpoint replace_scan (old new : string) (skip : nat) (s : string) : string :=
  match s with
  | EmptyString => ""
  | String c s' =>
      match skip with
      | S k => replace_scan old new k s'
      | O =>
          if starts_with old s
          then new +:+ replace_scan old new (String.length old - 1) s'
          else String c (replace_scan old new 0 s')
      end
  end.

(** With an empty [old], Python inserts [new] before every character and at
    the end. *)
Fixpoint intersperse (new s : string) : string :=
  match s with
  | EmptyString => new
  | String c s' => new +:+ String c (intersperse new s')
  end.

Definition replace (old new s : string) : string :=
  match old with
  | EmptyString => intersperse new s
  | String _ _ => replace_scan old new 0 s
  end.

End Str.

(** ** Regular expressions, as Python's backtracking matcher runs them *)

Module Re.

(** Single-character items. *)
Inductive atom : Type :=
| Chr (c : ascii)              (* a literal, such as [\{] *)
| Dot                          (* [.]: anything but a newline *)
| NoneOf (cs : list ascii).    (* [[^...]] *)

Inductive regex : Type :=
| Atom (a : atom)
| LazyStar (a : atom)          (* [a*?] *)
| Plus (a : atom)              (* [a+], greedy *)
| Seq (r1 r2 : regex)
| Alt (r1 r2 : regex).

Definition newline : ascii := ascii_of_nat 10.

Definition accepts (a : atom) (c : ascii) : bool :=
  match a with
  | Chr d => Ascii.eqb d c
  | Dot => negb (Ascii.eqb c newline)
  | NoneOf cs => negb (existsb (Ascii.eqb c) cs)
  end.

Section Matcher.
Context {R : Type}.

(** Lazy repetition: try the continuation first, consume one more
    character only when it fails. *)
Fixpoint lazy_star (a : atom) (k : string -> option R) (s : string) : option R :=
  match k s with
  | Some x => Some x
  | None =>
      match s with
      | String c s' => if accepts a c then lazy_star a k s' else None
      | EmptyString => None
      end
  end.

(** Greedy repetition: consume as long as possible, give characters back
    one at a time when the continuation fails. *)
Fixpoint greedy_star (a : atom) (k : string -> option R) (s : string) : option R :=
  match s with
  | String c s' =>
      if accepts a c
      then match greedy_star a k s' with
           | Some x => Some x
           | None => k s
           end
      else k s
  | EmptyString => k s
  end.

(** [run r s k]: match [r] at the front of [s], then hand the rest to
    [k]; a failure of [k] makes the matcher backtrack. *)
Fixpoint run (r : regex) (s : string) (k : string -> option R) : option R :=
  match r with
  | Atom a =>
      match s with
      | String c s' => if accepts a c then k s' else None
      | EmptyString => None
      end
  | LazyStar a => lazy_star a k s
  | Plus a =>
      match s with
      | String c s' => if accepts a c then greedy_star a k s' else None
      | EmptyString => None
      end
  | Seq r1 r2 => run r1 s (fun s' => run r2 s' k)
  | Alt r1 r2 =>
      match run r1 s k with
      | Some x => Some x
      | None => run r2 s k
      end
  end.
End Matcher.

(** [pattern.match(s)]: the text left after the match at the front of [s]. *)
Definition match_front (r : regex) (s : string) : option string :=
  run r s Some.

Fixpoint all_accepted (a : atom) (w : string) : Prop :=
  match w with
  | EmptyString => True
  | String c w' => accepts a c = true ∧ all_accepted a w'
  end.

(** The words a pattern denotes. *)
Fixpoint lang (r : regex) (w : string) : Prop :=
  match r with
  | Atom a => ∃ c, w = String c "" ∧ accepts a c = true
  | LazyStar a => all_accepted a w
  | Plus a => w ≠ "" ∧ all_accepted a w
  | Seq r1 r2 => ∃ w1 w2, w = w1 +:+ w2 ∧ lang r1 w1 ∧ lang r2 w2
  | Alt r1 r2 => lang r1 w ∨ lang r2 w
  end.

End Re.

(** ** The placeholder guard *)

(** [PLACEHOLDER_PATTERN = re.compile(r"(\{\{.*?\}\}|\{[^\{\}]+\})")] *)
Definition PLACEHOLDER_PATTERN : Re.regex :=
  let lb := Re.Atom (Re.Chr "{") in
  let rb := Re.Atom (Re.Chr "}") in
  Re.Alt
    (Re.Seq lb (Re.Seq lb (Re.Seq (Re.LazyStar Re.Dot) (Re.Seq rb rb))))
    (Re.Seq lb (Re.Seq (Re.Plus (Re.NoneOf ["{"; "}"]%char)) rb)).

(** [f"__TOKEN_{idx}__"] *)
Definition marker (idx : nat) : string :=
  "__TOKEN_" +:+ Str.of_nat idx +:+ "__".

(** [PLACEHOLDER_PATTERN.sub(_replace, text)], threading the [tokens] list
    of the closure: [idx] is [len(tokens)] before the next match, [skip]
    counts the characters of the current match still to be consumed.  The
    result is the safe text and the tokens appended from here on.  (A match
    of this pattern is never empty: it opens with a brace.) *)
Fixpoint sub_scan (skip idx : nat) (s : string) : string * list string :=
  match s with
  | EmptyString => ("", [])
  | String c s' =>
      match skip with
      | S k => sub_scan k idx s'
      | O =>
          match Re.match_front PLACEHOLDER_PATTERN s with
          | Some rest =>
              let n := String.length s - String.length rest in
              let token := String.substring 0 n s in
              let '(safe, tokens) := sub_scan (n - 1) (S idx) s' in
              (marker idx +:+ safe, token :: tokens)
          | None =>
              let '(safe, tokens) := sub_scan 0 idx s' in
              (String c safe, tokens)
          end
      end
  end.

Definition protect_placeholders (text : string) : string * list string :=
  sub_scan 0 0 text.

(** The loop of [restore_placeholders], from index [idx] on. *)
Fixpoint restore_from (idx : nat) (text : string) (tokens : list string) : string :=
  match tokens with
  | [] => text
  | token :: rest => restore_from (S idx) (Str.replace (marker idx) token text) rest
  end.

Definition restore_placeholders (text : string) (tokens : list string) : string :=
  restore_from 0 text tokens.

(** Guarding a text and restoring it at once, nothing translated. *)
Definition roundtrip (text : string) : string :=
  let '(safe_text, tokens) := protect_placeholders text in
  restore_placeholders safe_text tokens.

(** The run of [PLACEHOLDER_PATTERN.sub] as a derivation: the text is read
    as literal characters and matched tokens, and the safe text and the
    token list are built alongside. *)
Inductive Scan : nat → string → string → list string → Prop :=
| Scan_end i : Scan i "" "" []
| Scan_char i c s safe tokens :
    Re.match_front PLACEHOLDER_PATTERN (String c s) = None →
    Scan i s safe tokens →
    Scan i (String c s) (String c safe) tokens
| Scan_token i token rest safe tokens :
    Re.match_front PLACEHOLDER_PATTERN (token +:+ rest) = Some rest →
    Re.lang PLACEHOLDER_PATTERN token →
    Scan (S i) rest safe tokens →
    Scan i (token +:+ rest) ("__TOKEN_" +:+ Str.of_nat i +:+ "__" +:+ safe)
      (token :: tokens).

(** The text is free of the letters every marker carries. *)
Definition clean (s : string) : Prop := Str.contains "TOKEN_" s = false.


(** ** Documents *)

(** What [json.load] returns: [None], [bool], [int], [float], [str], [list]
    and [dict].  A [dict] is kept as its items in insertion order. *)
#[local] Unset Elimination Schemes.
Inductive json : Type :=
| JNull
| JBool (b : bool)
| JInt (n : Z)
| JFloat (f : PrimFloat.float)
| JStr (s : string)
| JList (l : list json)
| JDict (items : list (string * json)).
#[local] Set Elimination Schemes.

Module Dict.
Section Dict.
Context {V : Type}.

(** [d[k] = v]: an existing key keeps its position, a new key goes last. *)
Fixpoint set (d : list (string * V)) (k : string) (v : V) : list (string * V) :=
  match d with
  | [] => [(k, v)]
  | (k', v') :: d' =>
      if decide (k' = k) then (k', v) :: d' else (k', v') :: set d' k v
  end.

(** [d[k]], [None] standing for [KeyError]. *)
Fixpoint get (d : list (string * V)) (k : string) : option V :=
  match d with
  | [] => None
  | (k', v') :: d' => if decide (k' = k) then Some v' else get d' k
  end.

(** [k in d] *)
Definition mem (k : string) (d : list (string * V)) : bool :=
  bool_decide (is_Some (get d k)).

Definition keys (d : list (string * V)) : list string := d.*1.
End Dict.
End Dict.

(** Keys are unique in every [dict] of a Python value. *)
Fixpoint wf_json (v : json) : Prop :=
  match v with
  | JList l => (fix all (l : list json) : Prop :=
                  match l with
                  | [] => True
                  | x :: l' => wf_json x ∧ all l'
                  end) l
  | JDict items =>
      NoDup (Dict.keys items) ∧
      (fix all (l : list (string * json)) : Prop :=
         match l with
         | [] => True
         | (_, x) :: l' => wf_json x ∧ all l'
         end) items
  | _ => True
  end.

(** Nesting depth: the deepest chain of recursive calls a walk makes. *)
Fixpoint json_depth (v : json) : nat :=
  match v with
  | JList l => S (foldr (λ x n, Nat.max (json_depth x) n) 0%nat l)
  | JDict items =>
      S ((fix go (l : list (string * json)) : nat :=
            match l with
            | [] => 0%nat
            | (_, x) :: l' => Nat.max (json_depth x) (go l')
            end) items)
  | _ => 0%nat
  end.

(** ** Effects *)

(** What can be observed of a run, in order. *)
Inductive event : Type :=
| Call (target value safe : string)
    (* [translator.translate(safe)] while the leaf [value] is processed *)
| Print (line : string)
| OpenRead (path : string)
| Mkdir (path : string)
| WriteFile (dir name : string) (content : json).

(** What [translator.translate] does: return a string or raise. *)
Inductive reply : Type :=
| Returned (text : string)
| Raised (exc : string).

(** Comprehensions over a stateful body, left to right. *)
Section Comprehension.
Context {S A B : Type} (f : A → S → B * S).

(** [[f(v) for v in l]] *)
Fixpoint list_comprehension (l : list A) (st : S) : list B * S :=
  match l with
  | [] => ([], st)
  | v :: l' =>
      let '(v', st1) := f v st in
      let '(r, st2) := list_comprehension l' st1 in
      (v' :: r, st2)
  end.

(** [{k: f(v) for k, v in items}], [acc] being the dict built so far *)
Fixpoint dict_comprehension (items : list (string * A))
    (acc : list (string * B)) (st : S) : list (string * B) * S :=
  match items with
  | [] => (acc, st)
  | (k, v) :: items' =>
      let '(v', st1) := f v st in
      dict_comprehension items' (Dict.set acc k v') st1
  end.
End Comprehension.

(** The same with a body that may run out of stack. *)
Section ComprehensionFuel.
Context {S A B : Type} (f : A → S → option (B * S)).

Fixpoint list_comprehension_opt (l : list A) (st : S) : option (list B * S) :=
  match l with
  | [] => Some ([], st)
  | v :: l' =>
      match f v st with
      | None => None
      | Some (v', st1) =>
          match list_comprehension_opt l' st1 with
          | None => None
          | Some (r, st2) => Some (v' :: r, st2)
          end
      end
  end.

Fixpoint dict_comprehension_opt (items : list (string * A))
    (acc : list (string * B)) (st : S) : option (list (string * B) * S) :=
  match items with
  | [] => Some (acc, st)
  | (k, v) :: items' =>
      match f v st with
      | None => None
      | Some (v', st1) => dict_comprehension_opt items' (Dict.set acc k v') st1
      end
  end.
End ComprehensionFuel.

(** ** The tree translator *)

Section Translator.
(** [W] is the state of the world the translation service lives in. *)
Context {W : Type}.

(** A translator object: its [target] attribute and its [translate]
    method. *)
Record translator : Type := Translator {
  target : string;
  translate : string → W → reply * W
}.

(** The [cache] dict, the world, and the events so far. *)
Record state : Type := State {
  cache : gmap (string * string) string;
  world : W;
  trace : list event
}.

Definition warning (value tgt exc : string) : string :=
  "[warn] Failed to translate '" +:+ value +:+ "' to " +:+ tgt +:+ ": "
    +:+ exc +:+ ". Keeping original.".

(** The [str] branch of [translate_value]. *)
Definition translate_str (tr : translator) (value : string) (st : state)
    : string * state :=
  let key := (value, target tr) in
  match cache st !! key with
  | Some hit => (hit, st)
  | None =>
      let '(safe_text, tokens) := protect_placeholders value in
      let '(res, w') := translate tr safe_text (world st) in
      let called := trace st ++ [Call (target tr) value safe_text] in
      let '(translated, events) :=
        match res with
        | Returned t => (t, called)
        | Raised exc => (safe_text, called ++ [Print (warning value (target tr) exc)])
        end in
      let translated := restore_placeholders translated tokens in
      (translated, State (<[key := translated]> (cache st)) w' events)
  end.

Fixpoint translate_value (tr : translator) (value : json) (st : state)
    : json * state :=
  match value with
  | JDict items =>
      let '(d, st') := dict_comprehension (translate_value tr) items [] st in
      (JDict d, st')
  | JList l =>
      let '(l', st') := list_comprehension (translate_value tr) l st in
      (JList l', st')
  | JStr s =>
      let '(r, st') := translate_str tr s st in
      (JStr r, st')
  | _ => (value, st)
  end.

(** [translate_value] on a call stack of [fuel] frames: every call takes
    one frame, [None] stands for a stack that is too small. *)
Fixpoint translate_value_fuel (fuel : nat) (tr : translator) (value : json)
    (st : state) : option (json * state) :=
  match fuel with
  | O => None
  | S fuel' =>
      match value with
      | JDict items =>
          match dict_comprehension_opt (translate_value_fuel fuel' tr) items [] st with
          | Some (d, st') => Some (JDict d, st')
          | None => None
          end
      | JList l =>
          match list_comprehension_opt (translate_value_fuel fuel' tr) l st with
          | Some (l', st') => Some (JList l', st')
          | None => None
          end
      | JStr s =>
          let '(r, st') := translate_str tr s st in
          Some (JStr r, st')
      | _ => Some (value, st)
      end
  end.

(** ** The command line driver *)

Record args : Type := Args {
  source : string;
  output_dir : string;
  langs : option (list string)      (* [None] when [--langs] is absent *)
}.

(** The file system as [main] meets it. *)
Record env : Type := Env {
  load_source : string → option json;   (* [json.load]; [None]: it raises *)
  mkdir_ok : string → bool;
  write_ok : string → string → bool
}.

Inductive error : Type :=
| ValueError (msg : string)
| KeyError (key : string)
| InputError (path : string)
| FsError (path : string).

Inductive outcome : Type :=
| Completed
| Failed (e : error).

Definition BUNDLED_LANGS : list (string * string) :=
  [("pl", "pl"); ("de", "de"); ("fr", "fr"); ("it", "it");
   ("nl", "nl"); ("ar", "ar"); ("ja", "ja"); ("ko", "ko")].

(** [{code: BUNDLED_LANGS[code] for code in codes}] *)
Fixpoint select_langs (codes : list string) (acc : list (string * string))
    : error + list (string * string) :=
  match codes with
  | [] => inr acc
  | code :: codes' =>
      match Dict.get BUNDLED_LANGS code with
      | None => inl (KeyError code)
      | Some lang => select_langs codes' (Dict.set acc code lang)
      end
  end.

(** The [for locale, lang_code in target_langs.items()] loop.
    [service lang] is the [translate] method of
    [GoogleTranslator(source="en", target=lang)]. *)
Fixpoint translate_all (service : string → string → W → reply * W)
    (e : env) (a : args) (source_data : json)
    (targets : list (string * string)) (w : W) (tr : list event)
    : outcome * W * list event :=
  match targets with
  | [] => (Completed, w, tr ++ [Print "Translation complete."])
  | (locale, lang_code) :: targets' =>
      let tr := tr ++ [Print ("Translating locale '" +:+ locale +:+ "'...")] in
      let translator := Translator lang_code (service lang_code) in
      let '(translated, st) := translate_value translator source_data (State ∅ w tr) in
      let name := locale +:+ ".json" in
      if write_ok e (output_dir a) name
      then translate_all service e a source_data targets' (world st)
             (trace st ++ [WriteFile (output_dir a) name translated])
      else (Failed (FsError name), world st, trace st)
  end.

Definition main (service : string → string → W → reply * W)
    (e : env) (a : args) (w : W) : outcome * W * list event :=
  let chosen :=
    match langs a with
    | Some (c :: cs) =>
        let missing := filter (λ code, Dict.mem code BUNDLED_LANGS = false) (c :: cs) in
        match missing with
        | _ :: _ => inl (ValueError ("Unsupported locale codes: " +:+ Str.join ", " missing))
        | [] => select_langs (c :: cs) []
        end
    | _ => inr BUNDLED_LANGS
    end in
  match chosen with
  | inl err => (Failed err, w, [])
  | inr target_langs =>
      match load_source e (source a) with
      | None => (Failed (InputError (source a)), w, [OpenRead (source a)])
      | Some source_data =>
          let tr := [OpenRead (source a); Mkdir (output_dir a)] in
          if mkdir_ok e (output_dir a)
          then translate_all service e a source_data target_langs w tr
          else (Failed (FsError (output_dir a)), w, tr)
      end
  end.
End Translator.

Arguments translator : clear implicits.
Arguments state : clear implicits.

(** ** Vocabulary of the statements *)

(** Two documents of one shape: equal scalars, lists of one length, dicts
    with the same keys in the same order, and string leaves related by [R]. *)
#[local] Unset Elimination Schemes.
Inductive leafwise (R : string → string → Prop) : json → json → Prop :=
| leafwise_null : leafwise R JNull JNull
| leafwise_bool b : leafwise R (JBool b) (JBool b)
| leafwise_int n : leafwise R (JInt n) (JInt n)
| leafwise_float f : leafwise R (JFloat f) (JFloat f)
| leafwise_str s s' : R s s' → leafwise R (JStr s) (JStr s')
| leafwise_list l l' :
    Forall2 (leafwise R) l l' → leafwise R (JList l) (JList l')
| leafwise_dict items items' :
    Forall2 (λ kv kv', kv.1 = kv'.1 ∧ leafwise R kv.2 kv'.2) items items' →
    leafwise R (JDict items) (JDict items').
#[local] Set Elimination Schemes.

Definition same_shape : json → json → Prop := leafwise (λ _ _, True).

(** Events a translation may cause: service calls and console lines. *)
Definition service_event (e : event) : Prop :=
  match e with
  | Call _ _ _ | Print _ => True
  | _ => False
  end.

Definition is_call_for (tgt value : string) (e : event) : bool :=
  match e with
  | Call t v _ => bool_decide (t = tgt ∧ v = value)
  | _ => false
  end.

(** How often the service bound to [tgt] was called for the leaf [value]. *)
Fixpoint call_count (tgt value : string) (tr : list event) : nat :=
  match tr with
  | [] => 0
  | e :: tr' => ((if is_call_for tgt value e then 1 else 0) + call_count tgt value tr')%nat
  end.

(** The files a run wrote, as directory and name, in order. *)
Fixpoint written (tr : list event) : list (string * string) :=
  match tr with
  | [] => []
  | WriteFile dir name _ :: tr' => (dir, name) :: written tr'
  | _ :: tr' => written tr'
  end.

(** What one walk does to the state: the cache only grows, the trace is
    extended by service events, no leaf is sent twice, and a leaf is sent
    only when the cache missed it and is cached afterwards. *)
Definition run_ok {W} (tr : translator W) (st st' : state W) : Prop :=
  cache st ⊆ cache st' ∧
  ∃ new,
    trace st' = trace st ++ new ∧
    Forall service_event new ∧
    (∀ value, (call_count (target tr) value new <= 1)%nat) ∧
    (∀ t value safe, Call t value safe ∈ new →
       t = target tr ∧ safe = (protect_placeholders value).1 ∧
       cache st !! (value, target tr) = None ∧
       is_Some (cache st' !! (value, target tr))).

(** The cache of [st] holds [r] for the leaf [s]. *)
Definition cached {W} (tr : translator W) (st : state W) (s r : string) : Prop :=
  cache st !! (s, target tr) = Some r.

(** A locale code of the configured set. *)
Definition supported (code : string) : Prop :=
  Dict.mem code BUNDLED_LANGS = true.

(** The file [main] writes for a locale. *)
Definition file_of (a : args) (locale : string) : string * string :=
  (output_dir a, locale +:+ ".json").

(** ASCII [str.upper]. *)
Definition upper_char (c : ascii) : ascii :=
  let n := nat_of_ascii c in
  if ((97 <=? n) && (n <=? 122))%nat then ascii_of_nat (n - 32) else c.

Fixpoint upper (s : string) : string :=
  match s with
  | EmptyString => ""
  | String c s' => String (upper_char c) (upper s')
  end.

(** A translator that uppercases what it is given and never fails. *)
Definition shouting (tgt : string) : translator unit :=
  Translator tgt (λ text w, (Returned (upper text), w)).

(** A translator whose service is down. *)
Definition failing (tgt : string) : translator unit :=
  Translator tgt (λ text w, (Raised "service unavailable", w)).

Definition fresh {W} (w : W) : state W := State ∅ w [].

(** Pieces of text with a filler between each piece and the next. *)
Fixpoint weave (pieces fills : list string) : string :=
  match pieces with
  | [] => ""
  | p :: pieces' =>
      match fills with
      | [] => p
      | f :: fills' => p +:+ f +:+ weave pieces' fills'
      end
  end.

(** The markers [__TOKEN_i__] ... of [n] tokens numbered from [i]. *)
Definition markers (i n : nat) : list string := marker <$> seq i n.

(** Every string leaf of a document satisfies [P]. *)
Fixpoint all_leaves (P : string → Prop) (v : json) : Prop :=
  match v with
  | JStr s => P s
  | JList l => (fix all (l : list json) : Prop :=
                  match l with
                  | [] => True
                  | x :: l' => all_leaves P x ∧ all l'
                  end) l
  | JDict items =>
      (fix all (l : list (string * json)) : Prop :=
         match l with
         | [] => True
         | (_, x) :: l' => all_leaves P x ∧ all l'
         end) items
  | _ => True
  end.

(** A service that, when it answers at all, answers with the text it was
    given. *)
Definition echoes {W} (tr : translator W) : Prop :=
  ∀ text w, match (translate tr text w).1 with
            | Returned t => t = text
            | Raised _ => True
            end.

(** Every entry of the cache for the target of [tr] maps a leaf to itself. *)
Definition identity_cache {W} (tr : translator W) (st : state W) : Prop :=
  ∀ s r, cache st !! (s, target tr) = Some r → r = s.
(** * Facts *)

(** ** Strings *)

Module StrFacts.
Import Str.

Lemma app_nil_r (s : string) : s +:+ "" = s.
Proof. induction s as [|c s IH]; simpl; [done | by rewrite IH]. Qed.

Lemma app_assoc (a b c : string) : (a +:+ b) +:+ c = a +:+ b +:+ c.
Proof. induction a as [|x a IH]; simpl; [done | by rewrite IH]. Qed.

Lemma app_cons_mid (a : string) (c : ascii) (b : string) :
  a +:+ String c b = (a +:+ String c "") +:+ b.
Proof. by rewrite app_assoc. Qed.

Lemma length_app (a b : string) :
  String.length (a +:+ b) = (String.length a + String.length b)%nat.
Proof. induction a as [|x a IH]; simpl; [done | by rewrite IH]. Qed.

Lemma app_inv_head (a b c : string) : a +:+ b = a +:+ c → b = c.
Proof. induction a as [|x a IH]; simpl; [done | intros [=]; auto]. Qed.

Lemma substring_app (a b : string) :
  String.substring 0 (String.length a) (a +:+ b) = a.
Proof.
  induction a as [|x a IH]; simpl.
  - by destruct b.
  - by rewrite IH.
Qed.

Lemma starts_with_app (p r : string) : starts_with p (p +:+ r) = true.
Proof.
  induction p as [|a p IH]; simpl; [done |].
  by rewrite Ascii.eqb_refl.
Qed.

Lemma starts_with_inv (p s : string) :
  starts_with p s = true → ∃ r, s = p +:+ r.
Proof.
  revert s. induction p as [|a p IH]; intros s H; simpl in *.
  - by exists s.
  - destruct s as [|b s]; [done |].
    destruct (Ascii.eqb_spec a b) as [->|]; [|done].
    destruct (IH _ H) as [r ->]. by exists r.
Qed.

Lemma starts_with_app_l (p a b : string) :
  starts_with p a = true → starts_with p (a +:+ b) = true.
Proof.
  intros [r ->]%starts_with_inv. rewrite app_assoc. apply starts_with_app.
Qed.

Lemma contains_tail (p : string) (c : ascii) (s : string) :
  contains p (String c s) = false → contains p s = false.
Proof. simpl. by intros [_ ?]%orb_false_elim. Qed.

Lemma contains_head (p s : string) :
  contains p s = false → starts_with p s = false.
Proof. destruct s; simpl; by intros [? _]%orb_false_elim. Qed.

Lemma contains_app_r (p a b : string) :
  contains p (a +:+ b) = false → contains p b = false.
Proof.
  induction a as [|x a IH]; simpl; [done |].
  intros [_ ?]%orb_false_elim. auto.
Qed.

Lemma contains_app_l (p a b : string) :
  contains p (a +:+ b) = false → contains p a = false.
Proof.
  induction a as [|x a IH]; simpl.
  - intros H. apply contains_head in H. destruct p; [done|]. by rewrite orb_false_r.
  - intros [H1 H2]%orb_false_elim. apply orb_false_intro; [|auto].
    destruct (starts_with p (String x a)) eqn:E; [|done].
    pose proof (starts_with_app_l p (String x a) b E) as E'. simpl in *. congruence.
Qed.

Lemma contains_front (p t : string) :
  starts_with p t = true → contains p t = true.
Proof. intros H. destruct t; simpl; by rewrite H. Qed.

Lemma contains_occurrence (p u v : string) :
  contains p (u +:+ p +:+ v) = true.
Proof.
  induction u as [|x u IH]; simpl.
  - apply contains_front, starts_with_app.
  - rewrite IH. apply orb_true_r.
Qed.

Lemma has_char_occurrence (c : ascii) (u v : string) :
  has_char c (u +:+ String c v) = true.
Proof.
  induction u as [|x u IH]; simpl.
  - by rewrite Ascii.eqb_refl.
  - rewrite IH. apply orb_true_r.
Qed.

Lemma contains_inv (p s : string) :
  contains p s = true → ∃ u v, s = u +:+ p +:+ v.
Proof.
  induction s as [|c s IH]; simpl.
  - rewrite orb_false_r. intros [r ->]%starts_with_inv. by exists "", r.
  - intros [[r ->]%starts_with_inv|(u & v & ->)%IH]%orb_prop.
    + by exists "", r.
    + by exists (String c u), v.
Qed.

(** *** Replacement *)

Lemma replace_scan_skip (old new t x : string) :
  replace_scan old new (String.length t) (t +:+ x) = replace_scan old new 0 x.
Proof. induction t as [|c t IH]; simpl; [by destruct x | done]. Qed.

(** An occurrence at the front is replaced and the scan goes on behind it. *)
Lemma replace_scan_front (c : ascii) (old new x : string) :
  replace_scan (String c old) new 0 (String c old +:+ x)
  = new +:+ replace_scan (String c old) new 0 x.
Proof.
  pose proof (starts_with_app (String c old) x) as E.
  change (String c old +:+ x) with (String c (old +:+ x)) in *.
  cbn [replace_scan]. rewrite E.
  replace (String.length (String c old) - 1)%nat with (String.length old)
    by (simpl; lia).
  by rewrite replace_scan_skip.
Qed.

(** Where [old] does not occur, nothing changes. *)
Lemma replace_scan_absent (old new t : string) :
  contains old t = false → replace_scan old new 0 t = t.
Proof.
  induction t as [|c t IH]; [done |].
  intros H. cbn [replace_scan].
  rewrite (contains_head _ _ H). f_equal. apply IH.
  by apply contains_tail in H.
Qed.

(** *** Decimal numerals *)

Lemma is_digit_not_underscore (c : ascii) : is_digit c = true → c ≠ "_"%char.
Proof. intros H ->. done. Qed.

Lemma of_uint_digits (d : Decimal.uint) :
  all_digits (NilEmpty.string_of_uint d) = true.
Proof. induction d; simpl; done. Qed.

Lemma of_nat_digits (n : nat) : all_digits (of_nat n) = true.
Proof. apply of_uint_digits. Qed.

Lemma of_nat_inj (n m : nat) : of_nat n = of_nat m → n = m.
Proof.
  unfold of_nat. intros H.
  apply DecimalNat.Unsigned.to_uint_inj.
  assert (Some (Nat.to_uint n) = Some (Nat.to_uint m)) as [=]; [|done].
  by rewrite <- !NilEmpty.usu, H.
Qed.

Lemma to_uint_not_nil (n : nat) : Nat.to_uint n ≠ Decimal.Nil.
Proof.
  intros H. pose proof (DecimalNat.Unsigned.to_of (Nat.to_uint n)) as E.
  rewrite DecimalNat.Unsigned.of_to in E. rewrite H in E. by cbv in E.
Qed.

Lemma of_nat_head (n : nat) :
  ∃ d ds, of_nat n = String d ds ∧ is_digit d = true.
Proof.
  pose proof (of_nat_digits n) as H. pose proof (to_uint_not_nil n) as N.
  unfold of_nat in *. destruct (Nat.to_uint n); [done | ..];
    simpl in *; eauto.
Qed.

(** Two numerals followed by an underscore agree as soon as the texts do. *)
Lemma digits_sep_inj (a b x y : string) :
  all_digits a = true → all_digits b = true →
  a +:+ String "_" x = b +:+ String "_" y → a = b.
Proof.
  revert b. induction a as [|c a IH]; intros [|d b]; simpl; try done.
  - intros _ [H _]%andb_prop [= <-]. done.
  - intros [H _]%andb_prop _ [= ->]. done.
  - intros [_ Ha]%andb_prop [_ Hb]%andb_prop [= -> E]. f_equal. eauto.
Qed.

End StrFacts.

(** ** The matcher *)

Module ReFacts.
Import Re StrFacts.

Section Sound.
Context {R : Type}.
Implicit Types (k : string → option R) (s : string).

Lemma lazy_star_sound a k s x :
  lazy_star a k s = Some x →
  ∃ w rest, s = w +:+ rest ∧ all_accepted a w ∧ k rest = Some x.
Proof.
  induction s as [|c s IH]; simpl.
  - destruct (k "") eqn:E; [|done]. intros [= ->]. by exists "", "".
  - destruct (k (String c s)) eqn:E.
    + intros [= ->]. by exists "", (String c s).
    + destruct (accepts a c) eqn:Ea; [|done].
      intros (w & rest & -> & Hw & Hk)%IH.
      by exists (String c w), rest.
Qed.

Lemma greedy_star_sound a k s x :
  greedy_star a k s = Some x →
  ∃ w rest, s = w +:+ rest ∧ all_accepted a w ∧ k rest = Some x.
Proof.
  induction s as [|c s IH]; simpl.
  - intros H. by exists "", "".
  - destruct (accepts a c) eqn:Ea; [|intros H; by exists "", (String c s)].
    destruct (greedy_star a k s) eqn:E.
    + intros [= ->]. destruct (IH eq_refl) as (w & rest & -> & Hw & Hk).
      by exists (String c w), rest.
    + intros H. by exists "", (String c s).
Qed.

(** Whatever the matcher accepts is a word of the pattern followed by a
    rest the continuation accepted. *)
Lemma run_sound r s k x :
  run r s k = Some x →
  ∃ w rest, s = w +:+ rest ∧ lang r w ∧ k rest = Some x.
Proof.
  revert s k. induction r as [a|a|a|r1 IH1 r2 IH2|r1 IH1 r2 IH2]; intros s k; simpl.
  - destruct s as [|c s]; [done|]. destruct (accepts a c) eqn:Ea; [|done].
    intros H. exists (String c ""), s. eauto.
  - apply lazy_star_sound.
  - destruct s as [|c s]; [done|]. destruct (accepts a c) eqn:Ea; [|done].
    intros (w & rest & -> & Hw & Hk)%greedy_star_sound.
    exists (String c w), rest. by repeat split.
  - intros (w1 & s1 & -> & H1 & (w2 & rest & -> & H2 & Hk)%IH2)%IH1.
    exists (w1 +:+ w2), rest. rewrite app_assoc. eauto 10.
  - destruct (run r1 s k) eqn:E.
    + intros [= ->]. destruct (IH1 _ _ E) as (w & rest & ? & ? & ?). eauto 10.
    + intros (w & rest & ? & ? & ?)%IH2. eauto 10.
Qed.
End Sound.

Lemma match_front_sound r s rest :
  match_front r s = Some rest → ∃ w, s = w +:+ rest ∧ lang r w.
Proof.
  intros (w & rest' & -> & Hw & [= ->])%run_sound. eauto.
Qed.

End ReFacts.

(** ** The guard *)

Module GuardFacts.
Import Str StrFacts Re ReFacts.

(** Every placeholder opens with a brace. *)
Lemma placeholder_head (w : string) :
  lang PLACEHOLDER_PATTERN w → ∃ w', w = String "{" w'.
Proof.
  intros [(w1 & w2 & -> & (c & -> & Hc) & _)|(w1 & w2 & -> & (c & -> & Hc) & _)];
    cbn [accepts] in Hc; apply Ascii.eqb_eq in Hc as <-; by exists w2.
Qed.

Lemma no_match_unless_brace (c : ascii) (s : string) :
  c ≠ "{"%char → match_front PLACEHOLDER_PATTERN (String c s) = None.
Proof.
  intros Hc. destruct (match_front _ _) as [rest|] eqn:E; [|done].
  apply match_front_sound in E as (w & E & (w' & ->)%placeholder_head).
  by injection E as ->.
Qed.

Lemma marker_app (i : nat) (x : string) :
  marker i +:+ x = "__TOKEN_" +:+ of_nat i +:+ "__" +:+ x.
Proof. unfold marker. by rewrite !app_assoc. Qed.

Lemma sub_scan_skip (t x : string) (j : nat) :
  sub_scan (String.length t) j (t +:+ x) = sub_scan 0 j x.
Proof. induction t as [|c t IH]; simpl; [by destruct x | done]. Qed.

Lemma sub_scan_Scan (s : string) (i : nat) :
  Scan i s (sub_scan 0 i s).1 (sub_scan 0 i s).2.
Proof.
  remember (String.length s) as n eqn:Hn.
  assert (String.length s <= n)%nat as Hle by lia. clear Hn.
  revert s i Hle. induction n as [|n IH]; intros [|c s] i Hle; simpl in Hle;
    try lia; try constructor.
  cbn [sub_scan].
  destruct (match_front PLACEHOLDER_PATTERN (String c s)) as [rest|] eqn:E.
  - destruct (match_front_sound _ _ _ E) as (w & Es & Hw).
    destruct (placeholder_head _ Hw) as (w' & ->).
    injection Es as -> ->.
    replace (String.length (String "{" (w' +:+ rest)) - String.length rest)%nat
      with (String.length (String "{" w'))
      by (simpl; rewrite length_app; lia).
    change (String "{" (w' +:+ rest)) with (String "{" w' +:+ rest).
    rewrite substring_app.
    replace (String.length (String "{" w') - 1)%nat with (String.length w')
      by (simpl; lia).
    rewrite sub_scan_skip.
    specialize (IH rest (S i)).
    destruct (sub_scan 0 (S i) rest) as [safe tokens]. cbn [fst snd].
    rewrite marker_app. constructor; [done..|].
    apply IH. rewrite length_app in Hle. lia.
  - specialize (IH s i). destruct (sub_scan 0 i s) as [safe tokens].
    constructor; [done|]. apply IH. lia.
Qed.

Lemma protect_Scan (s : string) :
  Scan 0 s (protect_placeholders s).1 (protect_placeholders s).2.
Proof. apply sub_scan_Scan. Qed.


(** *** Where a marker can occur in a safe text *)

Lemma clean_tail c s : clean (String c s) → clean s.
Proof. apply contains_tail. Qed.

Lemma clean_app_r a b : clean (a +:+ b) → clean b.
Proof. apply contains_app_r. Qed.

Lemma clean_app_l a b : clean (a +:+ b) → clean a.
Proof. apply contains_app_l. Qed.

(** A safe text that opens with anything but an underscore opens with a
    character of the source. *)
Lemma scan_char_head j s a t toks :
  Scan j s (String a t) toks → a ≠ "_"%char →
  ∃ s', s = String a s' ∧ Scan j s' t toks.
Proof. intros H Ha. inversion H; simplify_eq/=. eauto. Qed.

Lemma scan_no_TOKEN_digit j s d w toks :
  Scan j s ("TOKEN_" +:+ String d w) toks → clean s → is_digit d = true → False.
Proof.
  intros H Hs Hd. simpl in H.
  apply scan_char_head in H as (s1 & -> & H); [|done].
  apply scan_char_head in H as (s2 & -> & H); [|done].
  apply scan_char_head in H as (s3 & -> & H); [|done].
  apply scan_char_head in H as (s4 & -> & H); [|done].
  apply scan_char_head in H as (s5 & -> & H); [|done].
  inversion H; simplify_eq/=. unfold clean in Hs. simpl in Hs. done.
Qed.

Lemma scan_no_uTOKEN_digit j s d w toks :
  Scan j s ("_TOKEN_" +:+ String d w) toks → clean s → is_digit d = true → False.
Proof.
  intros H Hs Hd. simpl in H. inversion H; simplify_eq/=.
  match goal with
  | H' : Scan _ _ (String "T" _) _ |- _ =>
      apply (scan_no_TOKEN_digit _ _ _ _ _ H'); [by eapply clean_tail|done]
  end.
Qed.

Lemma marker_prefix_split u X x X' d w :
  X = String x X' → is_digit x = true →
  "__TOKEN_" +:+ X = u +:+ "__TOKEN_" +:+ String d w →
  (u = "" ∧ X = String d w) ∨ ∃ u', X = u' +:+ "__TOKEN_" +:+ String d w.
Proof.
  intros -> Hx H.
  destruct u as [|? u]; simplify_eq/=; [by left|].
  do 7 (destruct u as [|? u]; simplify_eq/=).
  right. by exists u.
Qed.

Lemma digits_then_marker D u safe d w :
  all_digits D = true → is_digit d = true →
  D +:+ "__" +:+ safe = u +:+ "__TOKEN_" +:+ String d w →
  (∃ u', safe = u' +:+ "__TOKEN_" +:+ String d w)
  ∨ safe = "TOKEN_" +:+ String d w
  ∨ safe = "_TOKEN_" +:+ String d w.
Proof.
  intros HD Hd. revert u. induction D as [|c D IH]; intros u H.
  - destruct u as [|? u]; simplify_eq/=; [by right; left|].
    destruct u as [|? u]; simplify_eq/=; [by right; right|].
    left. by exists u.
  - simpl in HD. apply andb_prop in HD as [Hc HD].
    destruct u as [|? u]; simplify_eq/=. eauto.
Qed.

(** In the safe text of a clean source, [__TOKEN_] followed by a digit only
    occurs as the opening of a marker not yet numbered below [j]. *)
Lemma marker_only_from_scan j s safe toks :
  Scan j s safe toks → clean s →
  ∀ u d w, is_digit d = true →
    safe = u +:+ "__TOKEN_" +:+ String d w →
    ∃ k w', (j <= k)%nat ∧ String d w = of_nat k +:+ "__" +:+ w'.
Proof.
  induction 1 as [i|i c s safe toks Hm Hs IH|i tok rest safe toks Hm Hl Hs IH];
    intros Hclean u d w Hd E.
  - destruct u; simplify_eq/=.
  - destruct u as [|? u]; simplify_eq/=.
    + exfalso.
      apply (scan_no_uTOKEN_digit _ _ _ _ _ Hs); [by eapply clean_tail|done].
    + eapply IH; [by eapply clean_tail|done..].
  - apply clean_app_r in Hclean.
    destruct (of_nat_head i) as (x & X' & Ex & Hx).
    eapply marker_prefix_split in E as [[-> E]|[u' E]];
      [| |by rewrite Ex|done].
    + exists i, safe. split; [lia|]. by rewrite <- E.
    + apply digits_then_marker in E as [[u'' ->]|[->| ->]];
        [| | |apply of_nat_digits|done].
      * destruct (IH Hclean u'' d w Hd eq_refl) as (k & w' & ? & ?).
        exists k, w'. split; [lia|done].
      * exfalso. by apply (scan_no_TOKEN_digit _ _ _ _ _ Hs).
      * exfalso. by apply (scan_no_uTOKEN_digit _ _ _ _ _ Hs).
Qed.

(** So marker [i] does not occur in a safe text numbered from [j > i]. *)
Lemma marker_absent i j s safe toks :
  Scan j s safe toks → clean s → (i < j)%nat →
  contains (marker i) safe = false.
Proof.
  intros Hs Hclean Hij.
  destruct (contains (marker i) safe) eqn:E; [|done]. exfalso.
  apply contains_inv in E as (u & v & ->).
  destruct (of_nat_head i) as (d & ds & Ed & Hd).
  rewrite marker_app, Ed in Hs.
  destruct (marker_only_from_scan _ _ _ _ Hs Hclean u d (ds +:+ "__" +:+ v) Hd)
    as (k & w' & Hk & E); [done|].
  change (String d (ds +:+ "__" +:+ v)) with (String d ds +:+ "__" +:+ v) in E.
  rewrite <- Ed in E.
  apply digits_sep_inj, of_nat_inj in E; [lia|apply of_nat_digits..].
Qed.

Lemma replace_marker i new t :
  Str.replace (marker i) new t = replace_scan (marker i) new 0 t.
Proof. done. Qed.

Lemma replace_marker_front i new x :
  replace_scan (marker i) new 0 (marker i +:+ x)
  = new +:+ replace_scan (marker i) new 0 x.
Proof. apply (replace_scan_front "_"). Qed.

(** Clean text in front of two underscores holds no marker, not even one
    that would run into the underscores. *)
Lemma replace_skip_clean i new A R :
  clean A →
  replace_scan (marker i) new 0 (A +:+ "__" +:+ R)
  = A +:+ replace_scan (marker i) new 0 ("__" +:+ R).
Proof.
  induction A as [|c A IH]; intros Hclean; [done|].
  change (String c A +:+ "__" +:+ R) with (String c (A +:+ "__" +:+ R)).
  cbn [replace_scan].
  destruct (starts_with (marker i) (String c (A +:+ "__" +:+ R))) eqn:E.
  - exfalso. apply starts_with_inv in E as [r E].
    rewrite marker_app in E.
    destruct (of_nat_head i) as (d & ds & Ed & Hd). rewrite Ed in E.
    clear IH Ed. unfold clean in Hclean.
    simplify_eq/=.
    do 8 (destruct A as [|? A]; simplify_eq/=).
  - simpl. f_equal. apply IH. by eapply clean_tail.
Qed.

(** *** The round trip *)

Lemma restore_scan i s safe toks :
  Scan i s safe toks →
  ∀ A, clean (A +:+ s) → restore_from i (A +:+ safe) toks = A +:+ s.
Proof.
  induction 1 as [i|i c s safe toks Hm Hs IH|i tok rest safe toks Hm Hl Hs IH];
    intros A Hclean.
  - done.
  - rewrite (app_cons_mid A c safe), (app_cons_mid A c s).
    apply IH. by rewrite <- app_cons_mid.
  - cbn [restore_from]. rewrite replace_marker.
    change ("__TOKEN_" +:+ of_nat i +:+ "__" +:+ safe)
      with ("__" +:+ "TOKEN_" +:+ of_nat i +:+ "__" +:+ safe).
    rewrite replace_skip_clean by (by eapply clean_app_l).
    change ("__" +:+ "TOKEN_" +:+ of_nat i +:+ "__" +:+ safe)
      with ("__TOKEN_" +:+ of_nat i +:+ "__" +:+ safe).
    rewrite <- marker_app, replace_marker_front.
    rewrite (replace_scan_absent _ _ safe).
    + rewrite <- (app_assoc A tok safe), <- (app_assoc A tok rest).
      apply IH. by rewrite app_assoc.
    + eapply marker_absent; [done| |lia].
      by eapply clean_app_r, clean_app_r.
Qed.

End GuardFacts.

(** ** Documents *)

Module TreeFacts.

Lemma json_nested_ind (P : json → Prop)
    (Hnull : P JNull) (Hbool : ∀ b, P (JBool b)) (Hint : ∀ n, P (JInt n))
    (Hfloat : ∀ f, P (JFloat f)) (Hstr : ∀ s, P (JStr s))
    (Hlist : ∀ l, Forall P l → P (JList l))
    (Hdict : ∀ items, Forall (λ kv, P kv.2) items → P (JDict items)) :
  ∀ v, P v.
Proof.
  fix IH 1. intros [| b | n | f | s | l | items].
  - apply Hnull.
  - apply Hbool.
  - apply Hint.
  - apply Hfloat.
  - apply Hstr.
  - apply Hlist. induction l as [|x l IHl]; constructor; [apply IH | apply IHl].
  - apply Hdict.
    induction items as [|[k x] items IHi]; constructor; [apply IH | apply IHi].
Qed.

Lemma wf_list l : wf_json (JList l) ↔ Forall wf_json l.
Proof.
  induction l as [|x l IH]; simpl in *.
  - split; [constructor | done].
  - rewrite Forall_cons. by rewrite <- IH.
Qed.

Lemma wf_dict items :
  wf_json (JDict items) ↔
  NoDup (Dict.keys items) ∧ Forall (λ kv, wf_json kv.2) items.
Proof.
  simpl. apply and_iff_compat_l.
  induction items as [|[k x] items IH]; simpl in *.
  - split; [constructor | done].
  - rewrite Forall_cons. by rewrite <- IH.
Qed.

Lemma depth_list l n :
  (json_depth (JList l) < S n)%nat → Forall (λ x, (json_depth x < n)%nat) l.
Proof.
  simpl. induction l as [|x l IH]; simpl; intros H; constructor; [lia|].
  apply IH. lia.
Qed.

Lemma depth_dict items n :
  (json_depth (JDict items) < S n)%nat →
  Forall (λ kv, (json_depth kv.2 < n)%nat) items.
Proof.
  simpl. induction items as [|[k x] items IH]; simpl; intros H; constructor;
    simpl; [lia|].
  apply IH. lia.
Qed.

(** *** Insertion-ordered dicts *)

Lemma set_fresh {V} (d : list (string * V)) k v :
  k ∉ Dict.keys d → Dict.set d k v = d ++ [(k, v)].
Proof.
  unfold Dict.keys. induction d as [|[k' v'] d IH]; simpl; [done|].
  intros H. apply not_elem_of_cons in H as [Hne H].
  rewrite decide_False by done. by rewrite IH.
Qed.

Lemma keys_set {V} (d : list (string * V)) k v :
  Dict.keys (Dict.set d k v)
  = if decide (k ∈ Dict.keys d) then Dict.keys d else Dict.keys d ++ [k].
Proof.
  unfold Dict.keys. induction d as [|[k' v'] d IH]; [done|].
  cbn [Dict.set]. destruct (decide (k' = k)) as [->|Hne]; csimpl.
  - rewrite decide_True; [done | apply list_elem_of_here].
  - rewrite IH. destruct (decide (k ∈ d.*1)) as [Hin|Hin].
    + rewrite decide_True; [done | by apply list_elem_of_further].
    + rewrite decide_False; [done|].
      intros [?|?]%elem_of_cons; congruence.
Qed.

Lemma mem_get {V} (d : list (string * V)) k :
  Dict.mem k d = true ↔ is_Some (Dict.get d k).
Proof. unfold Dict.mem. by rewrite bool_decide_eq_true. Qed.

(** *** Traces *)

Lemma call_count_app tgt value l1 l2 :
  call_count tgt value (l1 ++ l2)
  = (call_count tgt value l1 + call_count tgt value l2)%nat.
Proof. induction l1 as [|e l1 IH]; simpl; [done | rewrite IH; lia]. Qed.

Lemma call_count_pos tgt value l :
  (0 < call_count tgt value l)%nat → ∃ safe, Call tgt value safe ∈ l.
Proof.
  induction l as [|e l IH]; simpl; [lia|].
  destruct (is_call_for tgt value e) eqn:E.
  - intros _. destruct e; simpl in E; try done.
    apply bool_decide_eq_true in E as [-> ->].
    eexists. apply list_elem_of_here.
  - intros [safe H]%IH. exists safe. by apply list_elem_of_further.
Qed.

Lemma written_app l1 l2 : written (l1 ++ l2) = written l1 ++ written l2.
Proof.
  induction l1 as [|e l1 IH]; simpl; [done|]. destruct e; simpl; by rewrite ?IH.
Qed.

Lemma written_service l : Forall service_event l → written l = [].
Proof. induction 1 as [|e l He _ IH]; [done|]. by destruct e. Qed.

Section Walk.
Context {W : Type} (tr : translator W).
Implicit Types (st : state W) (v : json).

Lemma run_ok_refl st : run_ok tr st st.
Proof.
  split; [done|]. exists []. split_and!.
  - by rewrite app_nil_r.
  - constructor.
  - intros value. simpl. lia.
  - by intros ??? ?%elem_of_nil.
Qed.

Lemma run_ok_trans st1 st2 st3 :
  run_ok tr st1 st2 → run_ok tr st2 st3 → run_ok tr st1 st3.
Proof.
  intros (Hc1 & n1 & Ht1 & Hs1 & Hn1 & He1) (Hc2 & n2 & Ht2 & Hs2 & Hn2 & He2).
  split; [by etrans|]. exists (n1 ++ n2). split_and!.
  - by rewrite Ht2, Ht1, app_assoc.
  - by apply Forall_app.
  - intros value. rewrite call_count_app.
    specialize (Hn1 value). specialize (Hn2 value).
    destruct (call_count (target tr) value n1) as [|c1] eqn:E1; [lia|].
    destruct (call_count (target tr) value n2) as [|c2] eqn:E2; [lia|].
    exfalso.
    destruct (call_count_pos (target tr) value n1) as [a1 H1]; [lia|].
    destruct (call_count_pos (target tr) value n2) as [a2 H2]; [lia|].
    apply He1 in H1 as (_ & _ & _ & [r Hr]).
    apply He2 in H2 as (_ & _ & Hnone & _). congruence.
  - intros t value safe [H|H]%elem_of_app.
    + apply He1 in H as (? & ? & ? & [r Hr]). split_and!; [done..|].
      exists r. by eapply lookup_weaken.
    + apply He2 in H as (? & ? & Hnone & ?). split_and!; [done..| |done].
      destruct (cache st1 !! (value, target tr)) as [r|] eqn:E; [|done].
      by rewrite (lookup_weaken _ _ _ _ E Hc1) in Hnone.
Qed.

(** The [str] branch: what it returns is what the cache holds afterwards. *)
Lemma translate_str_run (value : string) st :
  run_ok tr st (translate_str tr value st).2 ∧
  cache (translate_str tr value st).2 !! (value, target tr)
    = Some (translate_str tr value st).1.
Proof.
  unfold translate_str.
  destruct (cache st !! (value, target tr)) as [hit|] eqn:Hc; simpl.
  - split; [apply run_ok_refl | done].
  - destruct (protect_placeholders value) as [safe tokens] eqn:Hp.
    destruct (translate tr safe (world st)) as [res w'] eqn:Ht.
    assert (safe = (protect_placeholders value).1) as Hsafe by by rewrite Hp.
    destruct res as [t|exc]; simpl.
    + split; [|by rewrite lookup_insert_eq].
      split; [by apply insert_subseteq|]. simpl.
      eexists. split_and!; [done|repeat constructor|..].
      * intros v. simpl. case_bool_decide; lia.
      * intros t' v a [= -> -> ->]%list_elem_of_singleton.
        split_and!; [done..|]. by rewrite lookup_insert_eq.
    + split; [|by rewrite lookup_insert_eq].
      split; [by apply insert_subseteq|]. simpl.
      exists [Call (target tr) value safe; Print (warning value (target tr) exc)].
      split_and!; [by rewrite <- app_assoc|repeat constructor|..].
      * intros v. simpl. case_bool_decide; lia.
      * intros t' v a [[= -> -> ->]|[?|?%elem_of_nil]%elem_of_cons]%elem_of_cons;
          try done.
        split_and!; [done..|]. by rewrite lookup_insert_eq.
Qed.

(** *** The walk *)

Lemma list_comprehension_run l :
  Forall (λ v, ∀ st, run_ok tr st (translate_value tr v st).2) l →
  ∀ st, run_ok tr st (list_comprehension (translate_value tr) l st).2.
Proof.
  induction 1 as [|v l Hv _ IH]; intros st; simpl; [apply run_ok_refl|].
  specialize (Hv st). destruct (translate_value tr v st) as [v' st1].
  specialize (IH st1).
  destruct (list_comprehension (translate_value tr) l st1) as [r st2].
  by eapply run_ok_trans.
Qed.

Lemma dict_comprehension_run items :
  Forall (λ kv, ∀ st, run_ok tr st (translate_value tr kv.2 st).2) items →
  ∀ acc st,
    run_ok tr st (dict_comprehension (translate_value tr) items acc st).2.
Proof.
  induction 1 as [|[k v] items Hv _ IH]; intros acc st; simpl;
    [apply run_ok_refl|].
  specialize (Hv st). simpl in Hv.
  destruct (translate_value tr v st) as [v' st1].
  by eapply run_ok_trans.
Qed.

Lemma translate_value_run v : ∀ st, run_ok tr st (translate_value tr v st).2.
Proof.
  induction v as [| | | |s|l IH|items IH] using json_nested_ind; intros st;
    try apply run_ok_refl.
  - simpl. pose proof (translate_str_run s st) as [H _].
    by destruct (translate_str tr s st).
  - simpl. pose proof (list_comprehension_run l IH st) as H.
    by destruct (list_comprehension _ l st).
  - simpl. pose proof (dict_comprehension_run items IH [] st) as H.
    by destruct (dict_comprehension _ items [] st).
Qed.

Lemma list_walk_run l st :
  run_ok tr st (list_comprehension (translate_value tr) l st).2.
Proof.
  apply list_comprehension_run, Forall_forall. intros ??. apply translate_value_run.
Qed.

Lemma dict_walk_run items acc st :
  run_ok tr st (dict_comprehension (translate_value tr) items acc st).2.
Proof.
  apply dict_comprehension_run, Forall_forall. intros ??. apply translate_value_run.
Qed.

(** *** Leaves *)

Lemma cached_mono st st' s r :
  run_ok tr st st' → cached tr st s r → cached tr st' s r.
Proof. intros [Hc _] H. by eapply lookup_weaken. Qed.

Lemma leafwise_mono (R R' : string → string → Prop) v :
  (∀ s r, R s r → R' s r) → ∀ v', leafwise R v v' → leafwise R' v v'.
Proof.
  intros HR.
  induction v as [| | | |s|l IH|items IH] using json_nested_ind; intros v' H;
    inversion H as [| | | |? ? Hs|? l' Hl|? items' Hi]; subst; constructor;
    [by apply HR| |].
  - clear H. induction Hl as [|x x' l l' Hx _ IHl]; constructor;
      inversion IH; subst; auto.
  - clear H. induction Hi as [|x x' l l' [Hk Hx] _ IHl]; constructor;
      inversion IH; subst; auto.
Qed.

Lemma list_comprehension_leaves l :
  Forall (λ v, ∀ st, leafwise (cached tr (translate_value tr v st).2) v
                       (translate_value tr v st).1) l →
  ∀ st, Forall2 (leafwise (cached tr (list_comprehension (translate_value tr) l st).2))
          l (list_comprehension (translate_value tr) l st).1.
Proof.
  induction 1 as [|v l Hv _ IH]; intros st; simpl; [constructor|].
  specialize (Hv st). destruct (translate_value tr v st) as [v' st1].
  specialize (IH st1). pose proof (list_walk_run l st1) as Hrun.
  destruct (list_comprehension (translate_value tr) l st1) as [r st2].
  constructor; [|done].
  eapply leafwise_mono; [|done]. intros ??. by apply cached_mono.
Qed.

Lemma dict_comprehension_leaves items :
  Forall (λ kv, ∀ st, leafwise (cached tr (translate_value tr kv.2 st).2) kv.2
                        (translate_value tr kv.2 st).1) items →
  ∀ acc st, NoDup (Dict.keys acc ++ Dict.keys items) →
    ∃ new,
      (dict_comprehension (translate_value tr) items acc st).1 = acc ++ new ∧
      Forall2 (λ kv kv', kv.1 = kv'.1 ∧
                 leafwise (cached tr (dict_comprehension (translate_value tr) items acc st).2)
                   kv.2 kv'.2) items new.
Proof.
  induction 1 as [|[k v] items Hv _ IH]; intros acc st Hnd; simpl.
  - exists []. by rewrite app_nil_r.
  - specialize (Hv st). simpl in Hv.
    destruct (translate_value tr v st) as [v' st1].
    assert (k ∉ Dict.keys acc) as Hk.
    { apply NoDup_app in Hnd as (_ & Hd & _). intros Hin.
      apply (Hd _ Hin). apply list_elem_of_here. }
    rewrite (set_fresh acc k v' Hk).
    destruct (IH (acc ++ [(k, v')]) st1) as (new & E & Hnew).
    { unfold Dict.keys in *. rewrite fmap_app, <- app_assoc. done. }
    pose proof (dict_walk_run items (acc ++ [(k, v')]) st1) as Hrun.
    exists ((k, v') :: new). split; [by rewrite E, <- app_assoc|].
    constructor; [|done]. split; [done|]. simpl.
    eapply leafwise_mono; [|done]. intros ??. by apply cached_mono.
Qed.

Lemma translate_value_leaves v :
  wf_json v →
  ∀ st, leafwise (cached tr (translate_value tr v st).2) v (translate_value tr v st).1.
Proof.
  induction v as [| | | |s|l IH|items IH] using json_nested_ind; intros Hwf st;
    try by constructor.
  - simpl. pose proof (translate_str_run s st) as [_ H].
    destruct (translate_str tr s st). by constructor.
  - apply wf_list in Hwf. simpl.
    assert (Forall (λ v, ∀ st, leafwise (cached tr (translate_value tr v st).2) v
                                (translate_value tr v st).1) l) as H.
    { apply Forall_forall. intros x Hx. rewrite Forall_forall in IH, Hwf. auto. }
    pose proof (list_comprehension_leaves l H st) as H'.
    destruct (list_comprehension _ l st). by constructor.
  - apply wf_dict in Hwf as [Hnd Hwf]. simpl.
    assert (Forall (λ kv, ∀ st, leafwise (cached tr (translate_value tr kv.2 st).2) kv.2
                                 (translate_value tr kv.2 st).1) items) as H.
    { apply Forall_forall. intros x Hx. rewrite Forall_forall in IH, Hwf. auto. }
    destruct (dict_comprehension_leaves items H [] st Hnd) as (new & E & H').
    destruct (dict_comprehension _ items [] st). simpl in *. subst.
    by constructor.
Qed.

(** *** Stack depth *)

Lemma list_comprehension_opt_enough n l :
  Forall (λ v, ∀ st, translate_value_fuel n tr v st = Some (translate_value tr v st)) l →
  ∀ st, list_comprehension_opt (translate_value_fuel n tr) l st
        = Some (list_comprehension (translate_value tr) l st).
Proof.
  induction 1 as [|v l Hv _ IH]; intros st; simpl; [done|].
  rewrite Hv. destruct (translate_value tr v st) as [v' st1].
  rewrite IH. by destruct (list_comprehension _ l st1).
Qed.

Lemma dict_comprehension_opt_enough n items :
  Forall (λ kv, ∀ st, translate_value_fuel n tr kv.2 st
                      = Some (translate_value tr kv.2 st)) items →
  ∀ acc st, dict_comprehension_opt (translate_value_fuel n tr) items acc st
            = Some (dict_comprehension (translate_value tr) items acc st).
Proof.
  induction 1 as [|[k v] items Hv _ IH]; intros acc st; simpl; [done|].
  simpl in Hv. rewrite Hv. destruct (translate_value tr v st) as [v' st1].
  by rewrite IH.
Qed.

Lemma translate_value_fuel_enough v :
  ∀ n st, (json_depth v < n)%nat →
    translate_value_fuel n tr v st = Some (translate_value tr v st).
Proof.
  induction v as [|b|z|f|s|l IH|items IH] using json_nested_ind;
    intros [|n] st Hn; try (simpl in Hn; lia); try done.
  - simpl. by destruct (translate_str tr s st).
  - apply depth_list in Hn. cbn [translate_value_fuel translate_value].
    rewrite list_comprehension_opt_enough.
    + by destruct (list_comprehension _ l st).
    + rewrite Forall_forall in *. auto.
  - apply depth_dict in Hn. cbn [translate_value_fuel translate_value].
    rewrite dict_comprehension_opt_enough.
    + by destruct (dict_comprehension _ items [] st).
    + rewrite Forall_forall in *. auto.
Qed.
End Walk.

End TreeFacts.

(** ** Single leaves *)

Module LeafFacts.
Section Leaf.
Context {W : Type} (tr : translator W).
Implicit Types (st : state W).

Lemma translate_str_hit value st hit :
  cache st !! (value, target tr) = Some hit →
  translate_str tr value st = (hit, st).
Proof. intros H. unfold translate_str. by rewrite H. Qed.

Lemma translate_str_raised value st exc w' :
  cache st !! (value, target tr) = None →
  translate tr (protect_placeholders value).1 (world st) = (Raised exc, w') →
  translate_str tr value st
  = (roundtrip value,
     State (<[(value, target tr) := roundtrip value]> (cache st)) w'
       (trace st ++ [Call (target tr) value (protect_placeholders value).1;
                     Print (warning value (target tr) exc)])).
Proof.
  intros Hc Ht. unfold translate_str, roundtrip. rewrite Hc.
  destruct (protect_placeholders value) as [safe tokens]. simpl in *.
  rewrite Ht. by rewrite <- app_assoc.
Qed.
End Leaf.
End LeafFacts.

(** ** The driver *)

Module MainFacts.
Import TreeFacts.

Lemma select_langs_spec codes :
  Forall supported codes →
  ∀ acc, NoDup (Dict.keys acc) →
    ∃ chosen, select_langs codes acc = inr chosen ∧
      NoDup (Dict.keys chosen) ∧
      ∀ c, c ∈ Dict.keys chosen ↔ c ∈ Dict.keys acc ∨ c ∈ codes.
Proof.
  induction 1 as [|code codes Hc _ IH]; intros acc Hnd; cbn [select_langs].
  - exists acc. split_and!; [done..|]. intros c. rewrite elem_of_nil. tauto.
  - apply mem_get in Hc as [lang Hl]. rewrite Hl.
    destruct (IH (Dict.set acc code lang)) as (chosen & E & Hnd' & Hin).
    { rewrite keys_set. case_decide; [done|].
      apply NoDup_app. split_and!; [done| |apply NoDup_singleton].
      intros x Hx ->%list_elem_of_singleton. done. }
    exists chosen. split_and!; [done..|]. intros c. rewrite Hin, keys_set.
    rewrite elem_of_cons. case_decide as Hd.
    + split; [tauto|]. intros [?|[->|?]]; tauto.
    + rewrite elem_of_app, list_elem_of_singleton. tauto.
Qed.

Section Driver.
Context {W : Type} (service : string → string → W → reply * W).
Context (e : env) (a : args).

Lemma translate_all_writes doc targets :
  (∀ name, write_ok e (output_dir a) name = true) →
  ∀ w tr,
    (translate_all service e a doc targets w tr).1.1 = Completed ∧
    written (translate_all service e a doc targets w tr).2
    = written tr ++ (file_of a <$> Dict.keys targets).
Proof.
  intros Hw. induction targets as [|[locale lang] targets IH]; intros w tr;
    cbn [translate_all].
  - split; [done|]. cbn [snd]. by rewrite written_app, !app_nil_r.
  - pose proof (translate_value_run (Translator lang (service lang)) doc
                  (State ∅ w (tr ++ [Print ("Translating locale '" +:+ locale +:+ "'...")])))
      as (_ & new & Ht & Hs & _).
    destruct (translate_value _ doc _) as [translated st]. simpl in Ht.
    rewrite Hw. destruct (IH (world st) (trace st ++
      [WriteFile (output_dir a) (locale +:+ ".json") translated])) as [H1 H2].
    split; [done|]. rewrite H2, Ht, !written_app.
    rewrite (written_service new Hs). simpl.
    by rewrite !app_nil_r, <- app_assoc.
Qed.
End Driver.

End MainFacts.

(** ** Plain texts and repeated markers *)

Module RestoreFacts.
Import Str StrFacts Re ReFacts GuardFacts.

(** A text without placeholders is copied. *)
Lemma sub_scan_plain (s : string) (i : nat) :
  (∀ u m v, s = u +:+ m +:+ v → ¬ lang PLACEHOLDER_PATTERN m) →
  sub_scan 0 i s = (s, []).
Proof.
  induction s as [|c s IH]; intros H; [done|].
  cbn [sub_scan].
  destruct (match_front PLACEHOLDER_PATTERN (String c s)) as [rest|] eqn:E.
  - apply match_front_sound in E as (w & E & Hw).
    destruct (H "" w rest); done.
  - rewrite IH; [done|]. intros u m v ->. by apply (H (String c u) m v).
Qed.

Lemma restore_from_snoc i text tokens tok :
  restore_from i text (tokens ++ [tok])
  = Str.replace (marker (i + length tokens)) tok (restore_from i text tokens).
Proof.
  revert i text. induction tokens as [|t tokens IH]; intros i text; simpl.
  - by rewrite Nat.add_0_r.
  - rewrite IH. by replace (S i + length tokens)%nat with (i + S (length tokens))%nat by lia.
Qed.

(** A piece without underscores is copied, the scan goes on behind it. *)
Lemma replace_skip_plain i new p x :
  has_char "_" p = false →
  replace_scan (marker i) new 0 (p +:+ x) = p +:+ replace_scan (marker i) new 0 x.
Proof.
  induction p as [|c p IH]; [done|]. simpl has_char.
  intros [Hc Hp]%orb_false_elim.
  change (String c p +:+ x) with (String c (p +:+ x)).
  cbn [replace_scan].
  replace (starts_with (marker i) (String c (p +:+ x))) with false.
  - simpl. f_equal. by apply IH.
  - unfold marker. simpl. by rewrite Hc.
Qed.

Lemma replace_join i tok pieces :
  Forall (λ p, has_char "_" p = false) pieces →
  Str.replace (marker i) tok (join (marker i) pieces) = join tok pieces.
Proof.
  rewrite replace_marker.
  induction 1 as [|p pieces Hp Hrest IH]; [done|].
  destruct pieces as [|q pieces].
  - cbn [join]. rewrite <- (app_nil_r p) at 1.
    rewrite replace_skip_plain by done. simpl. apply app_nil_r.
  - change (join (marker i) (p :: q :: pieces))
      with (p +:+ marker i +:+ join (marker i) (q :: pieces)).
    rewrite replace_skip_plain by done.
    by rewrite replace_marker_front, IH.
Qed.

(** Guarding and restoring a clean text gives it back. *)
Lemma roundtrip_of_clean (s : string) : clean s → roundtrip s = s.
Proof.
  intros Hs. unfold roundtrip. pose proof (protect_Scan s) as H.
  destruct (protect_placeholders s) as [safe tokens].
  apply (restore_scan _ _ _ _ H ""). done.
Qed.

End RestoreFacts.

(** * The properties of the specification *)

Import Str StrFacts GuardFacts RestoreFacts TreeFacts LeafFacts MainFacts.

(** ** Placeholder guard *)

(** C1, as the specification words it, does not hold: a text that already
    carries the marker [__TOKEN_0__], or only the letters [TOKEN_0] right
    behind a placeholder, is not given back by the round trip. *)
Lemma roundtrip_collides :
  roundtrip "__TOKEN_0__ {x}" ≠ "__TOKEN_0__ {x}" ∧
  roundtrip "{y}{x}TOKEN_0{z}" ≠ "{y}{x}TOKEN_0{z}".
Proof. split; vm_compute; discriminate. Qed.

(** C1, amended: for every text that does not contain [TOKEN_], restoring
    the placeholders of the guarded text, nothing translated, gives the text
    back exactly. *)
Theorem roundtrip_clean (S : string) :
  Str.contains "TOKEN_" S = false → roundtrip S = S.
Proof. apply roundtrip_of_clean. Qed.

Lemma roundtrip_clean_witness :
  Str.contains "TOKEN_" "Hi {{name}}, {count} new {{a}b}} {} items" = false ∧
  roundtrip "Hi {{name}}, {count} new {{a}b}} {} items"
  = "Hi {{name}}, {count} new {{a}b}} {} items".
Proof. split; [reflexivity | apply roundtrip_clean; reflexivity]. Defined.

(** C7: a text in which no substring is a placeholder is returned unchanged
    with an empty token list, and restoring any text with that list changes
    nothing. *)
Theorem no_placeholder_noop (S text : string) :
  (∀ u m v, S = u +:+ m +:+ v → ¬ Re.lang PLACEHOLDER_PATTERN m) →
  protect_placeholders S = (S, []) ∧
  restore_placeholders text (protect_placeholders S).2 = text.
Proof. intros H. rewrite (sub_scan_plain S 0 H : protect_placeholders S = _). done. Qed.

Lemma no_placeholder_noop_witness :
  protect_placeholders "Save changes" = ("Save changes", []) ∧
  restore_placeholders "Zapisz zmiany"
    (protect_placeholders "Save changes").2 = "Zapisz zmiany".
Proof.
  apply no_placeholder_noop. intros u m v E [m' ->]%placeholder_head.
  pose proof (has_char_occurrence "{" u (m' +:+ v)) as H.
  change (String "{" m' +:+ v) with (String "{" (m' +:+ v)) in E.
  rewrite <- E in H. vm_compute in H. discriminate.
Defined.

(** Braces that do not form a placeholder are left alone as well. *)
Example stray_braces_kept :
  protect_placeholders "a {} b }{ c {{x" = ("a {} b }{ c {{x", []).
Proof. vm_compute. reflexivity. Qed.

(** C9: the tokens are put back in increasing index order, the last token
    last, and one step replaces every occurrence of its marker: a text made
    of pieces joined by one marker becomes the pieces joined by the token. *)
Theorem restore_replaces_all (text : string) (tokens : list string)
    (tok : string) (pieces : list string) :
  Forall (λ p, Str.has_char "_" p = false) pieces →
  restore_placeholders text (tokens ++ [tok])
  = Str.replace (marker (length tokens)) tok (restore_placeholders text tokens) ∧
  Str.replace (marker (length tokens)) tok (Str.join (marker (length tokens)) pieces)
  = Str.join tok pieces ∧
  restore_placeholders (Str.join (marker 0) pieces) [tok] = Str.join tok pieces.
Proof.
  intros Hp. split_and!.
  - apply (restore_from_snoc 0).
  - by apply replace_join.
  - by apply (replace_join 0).
Qed.

Lemma restore_replaces_all_witness :
  restore_placeholders "__TOKEN_2__ or __TOKEN_0__" (["{a}"; "{b}"] ++ ["{c}"])
  = Str.replace (marker 2) "{c}"
      (restore_placeholders "__TOKEN_2__ or __TOKEN_0__" ["{a}"; "{b}"]) ∧
  Str.replace (marker 2) "{c}" (Str.join (marker 2) ["x "; " y "; " z"])
  = "x {c} y {c} z" ∧
  restore_placeholders (Str.join (marker 0) ["x "; " y "; " z"]) ["{c}"]
  = "x {c} y {c} z".
Proof.
  apply (restore_replaces_all "__TOKEN_2__ or __TOKEN_0__" ["{a}"; "{b}"] "{c}"
           ["x "; " y "; " z"]).
  repeat constructor.
Defined.

(** The order shows when a token carries a later marker: it is replaced in
    its turn. *)
Example restore_in_index_order :
  restore_placeholders "__TOKEN_0__" ["__TOKEN_1__"; "{x}"] = "{x}" ∧
  restore_placeholders "__TOKEN_1__" ["{x}"; "__TOKEN_0__"] = "__TOKEN_0__".
Proof. split; vm_compute; reflexivity. Qed.

(** ** Tree translator *)

(** C2, as the specification words it, does not hold: with the service down,
    a leaf that carries a marker of its own does not come back unchanged. *)
Lemma fallback_collides :
  (translate_value (failing "de") (JStr "__TOKEN_0__ {x}") (fresh tt)).1
  ≠ JStr "__TOKEN_0__ {x}".
Proof. vm_compute. discriminate. Qed.

(** C2, amended: when the translation function raises for a leaf [S] that
    does not contain [TOKEN_], [translate_value] still returns; what it
    returns is [S] itself, and one warning naming [S] and the target language
    is printed after the call. *)
Theorem fallback_on_failure {W} (tr : translator W) (S : string)
    (st : state W) (exc : string) (w' : W) :
  Str.contains "TOKEN_" S = false →
  cache st !! (S, target tr) = None →
  translate tr (protect_placeholders S).1 (world st) = (Raised exc, w') →
  ∃ st',
    translate_value tr (JStr S) st = (JStr S, st') ∧
    trace st' = trace st ++ [Call (target tr) S (protect_placeholders S).1;
                             Print (warning S (target tr) exc)] ∧
    ∃ pre mid post,
      warning S (target tr) exc = pre +:+ S +:+ mid +:+ target tr +:+ post.
Proof.
  intros Hclean Hc Ht. simpl.
  rewrite (translate_str_raised tr S st exc w' Hc Ht).
  rewrite (roundtrip_of_clean S Hclean).
  eexists. split_and!; [done..|].
  by exists "[warn] Failed to translate '", "' to ",
    (": " +:+ exc +:+ ". Keeping original.").
Qed.

Lemma fallback_on_failure_witness :
  ∃ st',
    translate_value (failing "de") (JStr "Bid {amount} by {{user}}") (fresh tt)
    = (JStr "Bid {amount} by {{user}}", st') ∧
    trace st' = [] ++ [Call "de" "Bid {amount} by {{user}}"
                         (protect_placeholders "Bid {amount} by {{user}}").1;
                       Print (warning "Bid {amount} by {{user}}" "de"
                                "service unavailable")] ∧
    ∃ pre mid post,
      warning "Bid {amount} by {{user}}" "de" "service unavailable"
      = pre +:+ "Bid {amount} by {{user}}" +:+ mid +:+ "de" +:+ post.
Proof.
  apply (fallback_on_failure (failing "de") "Bid {amount} by {{user}}"
           (fresh tt) "service unavailable" tt); reflexivity.
Defined.

(** C3: for every document and every translation function the result has
    the shape of the input: dicts keep their keys, untranslated and in
    order, lists keep their length and order, and numbers, booleans and
    null are returned as they are. *)
Theorem structure_preserved {W} (tr : translator W) (v : json) (st : state W) :
  wf_json v → same_shape v (translate_value tr v st).1.
Proof.
  intros Hwf. eapply leafwise_mono; [|by apply translate_value_leaves]. done.
Qed.

Lemma structure_preserved_witness :
  same_shape
    (JDict [("title", JStr "Hello {{name}}");
            ("tags", JList [JStr "a"; JNull; JBool true; JInt 5]);
            ("count", JInt 3)])
    (translate_value (shouting "de")
       (JDict [("title", JStr "Hello {{name}}");
               ("tags", JList [JStr "a"; JNull; JBool true; JInt 5]);
               ("count", JInt 3)]) (fresh tt)).1.
Proof.
  apply structure_preserved. simpl. split_and!; try done.
  apply (bool_decide_unpack _). vm_compute. exact I.
Defined.

(** C4: in one walk over a document, the translation function is called at
    most once for every leaf [S], always on the guarded form of [S] and only
    when the cache has no entry for it; every occurrence of [S] yields one
    and the same result, which is the cached one when the cache had it. *)
Theorem cache_idempotence {W} (tr : translator W) (v : json) (st : state W) :
  wf_json v →
  (∃ new,
     trace (translate_value tr v st).2 = trace st ++ new ∧
     (∀ S, (call_count (target tr) S new <= 1)%nat) ∧
     (∀ t S safe, Call t S safe ∈ new →
        t = target tr ∧ safe = (protect_placeholders S).1 ∧
        cache st !! (S, target tr) = None)) ∧
  (∃ result : string → option string,
     leafwise (λ S r, result S = Some r) v (translate_value tr v st).1 ∧
     (∀ S hit, cache st !! (S, target tr) = Some hit → result S = Some hit)).
Proof.
  intros Hwf.
  destruct (translate_value_run tr v st) as (Hsub & new & Ht & _ & Hn & He).
  split.
  - exists new. split_and!; [done..|].
    intros t S safe H. apply He in H. tauto.
  - exists (λ S, cache (translate_value tr v st).2 !! (S, target tr)). split.
    + by apply translate_value_leaves.
    + intros S hit H. by eapply lookup_weaken.
Qed.

Lemma cache_idempotence_witness :
  (∃ new,
     trace (translate_value (shouting "fr")
              (JList [JStr "Bid {n}"; JStr "Bid {n}";
                      JDict [("again", JStr "Bid {n}")]]) (fresh tt)).2
     = [] ++ new ∧
     (∀ S, (call_count "fr" S new <= 1)%nat) ∧
     (∀ t S safe, Call t S safe ∈ new →
        t = "fr" ∧ safe = (protect_placeholders S).1 ∧
        cache (fresh tt) !! (S, "fr") = None)) ∧
  (∃ result : string → option string,
     leafwise (λ S r, result S = Some r)
       (JList [JStr "Bid {n}"; JStr "Bid {n}";
               JDict [("again", JStr "Bid {n}")]])
       (translate_value (shouting "fr")
          (JList [JStr "Bid {n}"; JStr "Bid {n}";
                  JDict [("again", JStr "Bid {n}")]]) (fresh tt)).1 ∧
     (∀ S hit, cache (fresh tt) !! (S, "fr") = Some hit → result S = Some hit)).
Proof.
  apply (cache_idempotence (shouting "fr")). simpl. split_and!; try done.
  apply (bool_decide_unpack _). vm_compute. exact I.
Defined.

(** Calls are counted per leaf: two leaves may share one guarded form, and
    the service then sees that form once for each of them. *)
Example shared_guarded_form :
  trace (translate_value (shouting "fr") (JList [JStr "{a}"; JStr "{b}"]) (fresh tt)).2
  = [Call "fr" "{a}" "__TOKEN_0__"; Call "fr" "{b}" "__TOKEN_0__"].
Proof. vm_compute. reflexivity. Qed.

(** C8: when the translation function raises for a leaf [S], the fallback,
    the safe text with its placeholders restored, is stored in the cache;
    whatever is translated afterwards in the same walk, [S] then comes back
    as that fallback with no further call and no further warning. *)
Theorem failure_not_retried {W} (tr : translator W) (S : string)
    (st : state W) (exc : string) (w' : W) (later : json) :
  cache st !! (S, target tr) = None →
  translate tr (protect_placeholders S).1 (world st) = (Raised exc, w') →
  let fallback := roundtrip S in
  let st1 := (translate_value tr (JStr S) st).2 in
  let st2 := (translate_value tr later st1).2 in
  (translate_value tr (JStr S) st).1 = JStr fallback ∧
  cache st1 !! (S, target tr) = Some fallback ∧
  translate_value tr (JStr S) st1 = (JStr fallback, st1) ∧
  translate_value tr (JStr S) st2 = (JStr fallback, st2).
Proof.
  intros Hc Ht fallback st1 st2.
  assert (cache st1 !! (S, target tr) = Some fallback) as H1.
  { subst st1. simpl. rewrite (translate_str_raised tr S st exc w' Hc Ht).
    simpl. apply lookup_insert_eq. }
  assert (cache st2 !! (S, target tr) = Some fallback) as H2.
  { destruct (translate_value_run tr later st1) as [Hsub _].
    by eapply lookup_weaken. }
  split_and!.
  - simpl. by rewrite (translate_str_raised tr S st exc w' Hc Ht).
  - done.
  - simpl. by rewrite (translate_str_hit tr S st1 fallback H1).
  - simpl. by rewrite (translate_str_hit tr S st2 fallback H2).
Qed.

Lemma failure_not_retried_witness :
  let fallback := roundtrip "Lot {id}" in
  let st1 := (translate_value (failing "ja") (JStr "Lot {id}") (fresh tt)).2 in
  let st2 := (translate_value (failing "ja")
                (JList [JStr "Other"; JStr "Lot {id}"]) st1).2 in
  (translate_value (failing "ja") (JStr "Lot {id}") (fresh tt)).1 = JStr fallback ∧
  cache st1 !! ("Lot {id}", "ja") = Some fallback ∧
  translate_value (failing "ja") (JStr "Lot {id}") st1 = (JStr fallback, st1) ∧
  translate_value (failing "ja") (JStr "Lot {id}") st2 = (JStr fallback, st2).
Proof.
  apply (failure_not_retried (failing "ja") "Lot {id}" (fresh tt)
           "service unavailable" tt); reflexivity.
Defined.

(** C6: the document [{"greeting": "Hello {{name}}", "count": 3}] under a
    translation function that uppercases the safe text becomes
    [{"greeting": "HELLO {{name}}", "count": 3}]. *)
Theorem end_to_end_example :
  (translate_value (shouting "de")
     (JDict [("greeting", JStr "Hello {{name}}"); ("count", JInt 3)])
     (fresh tt)).1
  = JDict [("greeting", JStr "HELLO {{name}}"); ("count", JInt 3)].
Proof. vm_compute. reflexivity. Qed.

(** C10: [translate_value] returns for every document: a call stack one
    frame deeper than the document is nested is enough, since every
    recursive call goes into a value nested one level further in. *)
Theorem translate_value_terminates {W} (tr : translator W) (v : json)
    (st : state W) (spare : nat) :
  translate_value_fuel (S (json_depth v) + spare) tr v st
  = Some (translate_value tr v st).
Proof. apply translate_value_fuel_enough. lia. Qed.

(** A stack shallower than the document is not enough. *)
Example shallow_stack :
  translate_value_fuel 1 (shouting "de") (JList [JStr "a"]) (fresh tt) = None ∧
  translate_value_fuel 2 (shouting "de") (JList [JStr "a"]) (fresh tt)
  = Some (translate_value (shouting "de") (JList [JStr "a"]) (fresh tt)).
Proof. split; reflexivity. Qed.

(** ** Command line *)

(** C5: with [--langs] naming configured locales only, the run completes and
    writes one file [<code>.json] for every requested code and nothing else;
    with a code outside the configured set it raises an error naming the
    unsupported codes, before any file is touched or any text translated. *)
Theorem locale_filtering {W} (service : string → string → W → reply * W)
    (e : env) (a : args) (w : W) (codes : list string) :
  langs a = Some codes → codes ≠ [] →
  (Forall supported codes →
   ∀ doc, load_source e (source a) = Some doc →
     mkdir_ok e (output_dir a) = true →
     (∀ name, write_ok e (output_dir a) name = true) →
     (main service e a w).1.1 = Completed ∧
     ∃ locales, NoDup locales ∧ (∀ c, c ∈ locales ↔ c ∈ codes) ∧
       written (main service e a w).2 = file_of a <$> locales) ∧
  (¬ Forall supported codes →
   ∃ missing,
     missing = filter (λ c, Dict.mem c BUNDLED_LANGS = false) codes ∧
     missing ≠ [] ∧
     main service e a w
     = (Failed (ValueError ("Unsupported locale codes: " +:+ Str.join ", " missing)),
        w, [])).
Proof.
  intros Hl Hne. unfold main. rewrite Hl.
  destruct codes as [|c cs]; [done|]. split.
  - intros Hsup doc Hload Hmk Hwr.
    replace (filter _ (c :: cs)) with (@nil string).
    2:{ symmetry. clear -Hsup. induction Hsup as [|x l Hx _ IH]; [done|].
        rewrite filter_cons_False; [done|]. unfold supported in Hx. congruence. }
    destruct (select_langs_spec (c :: cs) Hsup []) as (chosen & -> & Hnd & Hin);
      [constructor|].
    rewrite Hload, Hmk.
    destruct (translate_all_writes service e a doc chosen Hwr w
                [OpenRead (source a); Mkdir (output_dir a)]) as [H1 H2].
    split; [done|]. exists (Dict.keys chosen). split_and!; [done| |done].
    intros x. rewrite Hin. rewrite elem_of_nil. tauto.
  - intros Hsup. eexists. split; [reflexivity|].
    assert (filter (λ c0, Dict.mem c0 BUNDLED_LANGS = false) (c :: cs) ≠ []) as Hm.
    { intros E. apply Hsup, Forall_forall. intros x Hx. unfold supported.
      destruct (Dict.mem x BUNDLED_LANGS) eqn:Ex; [done|].
      by destruct (filter_nil_not_elem_of _ _ x E Ex). }
    split; [done|]. by destruct (filter _ (c :: cs)).
Qed.

Lemma locale_filtering_witness :
  let service := λ lang, translate (shouting lang) in
  let e := Env (λ _, Some (JDict [("greeting", JStr "Hello {{name}}")]))
               (λ _, true) (λ _ _, true) in
  (written (main service e (Args "en.default.json" "locales" (Some ["de"; "fr"])) tt).2
   = [("locales", "de.json"); ("locales", "fr.json")]) ∧
  main service e (Args "en.default.json" "locales" (Some ["de"; "xx"])) tt
  = (Failed (ValueError "Unsupported locale codes: xx"), tt, []).
Proof.
  intros service e. split.
  - destruct (locale_filtering service e
                (Args "en.default.json" "locales" (Some ["de"; "fr"])) tt
                ["de"; "fr"] eq_refl ltac:(done)) as [H _].
    destruct (H ltac:(repeat constructor) _ eq_refl eq_refl (λ _, eq_refl))
      as (_ & locales & _ & _ & _).
    reflexivity.
  - destruct (locale_filtering service e
                (Args "en.default.json" "locales" (Some ["de"; "xx"])) tt
                ["de"; "xx"] eq_refl ltac:(done)) as [_ H].
    destruct H as (missing & -> & _ & ->); [|reflexivity].
    intros Hs. inversion Hs as [|?? _ Hs']. inversion Hs' as [|?? Hx _].
    vm_compute in Hx. discriminate.
Defined.

(** * Further facts *)

(** ** What the pattern recognises *)

Module MatchFacts.
Import Str StrFacts Re ReFacts GuardFacts.

Section Complete.
Context {R : Type}.
Implicit Types (k : string → option R).

Lemma lazy_star_complete a k w rest x :
  all_accepted a w → k rest = Some x →
  ∃ y, lazy_star a k (w +:+ rest) = Some y.
Proof.
  intros Hw Hk. induction w as [|c w IH]; simpl.
  - destruct rest; simpl; rewrite Hk; eauto.
  - destruct (k (String c (w +:+ rest))); [eauto|].
    destruct Hw as [-> Hw]. auto.
Qed.

Lemma greedy_star_complete a k w rest x :
  all_accepted a w → k rest = Some x →
  ∃ y, greedy_star a k (w +:+ rest) = Some y.
Proof.
  intros Hw Hk. induction w as [|c w IH]; simpl.
  - destruct rest as [|c rest]; simpl; [eauto|].
    destruct (accepts a c); [|eauto].
    destruct (greedy_star a k rest); eauto.
  - destruct Hw as [-> Hw]. destruct (IH Hw) as [y ->]. eauto.
Qed.

(** The matcher backtracks through every way of reading a word of the
    pattern, so it answers whenever the continuation accepts one of them. *)
Lemma run_complete r :
  ∀ w rest k x, lang r w → k rest = Some x →
    ∃ y, run r (w +:+ rest) k = Some y.
Proof.
  induction r as [a|a|a|r1 IH1 r2 IH2|r1 IH1 r2 IH2]; intros w rest k x Hw Hk;
    simpl in *.
  - destruct Hw as (c & -> & Hc). simpl. rewrite Hc. eauto.
  - by eapply lazy_star_complete.
  - destruct Hw as [Hne Hw]. destruct w as [|c w]; [done|].
    destruct Hw as [Hc Hw]. simpl. rewrite Hc. by eapply greedy_star_complete.
  - destruct Hw as (w1 & w2 & -> & H1 & H2). rewrite app_assoc.
    destruct (IH2 w2 rest k x H2 Hk) as [y Hy].
    by eapply (IH1 w1 (w2 +:+ rest)).
  - destruct (run r1 (w +:+ rest) k) eqn:E; [eauto|].
    destruct Hw as [Hw|Hw]; [|by eapply IH2].
    destruct (IH1 w rest k x Hw Hk) as [y Hy]. congruence.
Qed.
End Complete.

Lemma match_front_complete r w rest :
  lang r w → ∃ rest', match_front r (w +:+ rest) = Some rest'.
Proof. intros Hw. by eapply run_complete. Qed.

Lemma eqb_false_sym (a b : ascii) : Ascii.eqb a b = false → Ascii.eqb b a = false.
Proof. by rewrite Ascii.eqb_sym. Qed.

Lemma accepts_plain (c : ascii) :
  Ascii.eqb "{" c = false → Ascii.eqb "}" c = false →
  accepts (NoneOf ["{"; "}"]%char) c = true.
Proof.
  intros H1%eqb_false_sym H2%eqb_false_sym. cbn [accepts existsb].
  by rewrite H1, H2.
Qed.

(** The greedy run over text without braces stops at the closing brace. *)
Lemma greedy_star_plain {R} (k : string → option R) (y rest : string) (x : R) :
  has_char "{" y = false → has_char "}" y = false →
  k (String "}" rest) = Some x →
  greedy_star (NoneOf ["{"; "}"]%char) k (y +:+ String "}" rest) = Some x.
Proof.
  intros Hl Hr Hk. induction y as [|c y IH]; [done|].
  cbn [has_char] in Hl, Hr.
  apply orb_false_elim in Hl as [Hlc Hl]. apply orb_false_elim in Hr as [Hrc Hr].
  cbn [String.append greedy_star].
  rewrite (accepts_plain c Hlc Hrc). by rewrite IH.
Qed.

(** A brace, text without braces, a brace. *)
Lemma match_single (y rest : string) :
  y ≠ "" → has_char "{" y = false → has_char "}" y = false →
  match_front PLACEHOLDER_PATTERN ("{" +:+ y +:+ "}" +:+ rest) = Some rest.
Proof.
  intros Hne Hl Hr. destruct y as [|c y]; [done|].
  cbn [has_char] in Hl, Hr.
  apply orb_false_elim in Hl as [Hlc Hl]. apply orb_false_elim in Hr as [Hrc Hr].
  unfold match_front, PLACEHOLDER_PATTERN. cbn [String.append run accepts].
  rewrite Ascii.eqb_refl, Hlc.
  change (negb (existsb (Ascii.eqb c) ["{"; "}"]%char))
    with (accepts (NoneOf ["{"; "}"]%char) c).
  rewrite (accepts_plain c Hlc Hrc).
  by apply greedy_star_plain.
Qed.

(** The lazy run over text without a newline goes on to the first [}}]. *)
Lemma lazy_star_first_close (x rest : string) :
  has_char newline x = false → contains "}}" (x +:+ "}") = false →
  lazy_star Dot (λ s, run (Seq (Atom (Chr "}")) (Atom (Chr "}"))) s Some)
    (x +:+ "}}" +:+ rest) = Some rest.
Proof.
  induction x as [|c x IH]; intros Hn Hc; [done|].
  cbn [has_char] in Hn. apply orb_false_elim in Hn as [Hnc Hn].
  pose proof (contains_head _ _ Hc) as Hh. apply contains_tail in Hc.
  cbn [String.append lazy_star].
  replace (run _ (String c (x +:+ "}}" +:+ rest)) Some) with (@None string).
  - cbn [accepts]. rewrite (eqb_false_sym _ _ Hnc). by apply IH.
  - symmetry. cbn [run accepts].
    destruct (Ascii.eqb_spec "}" c) as [<-|]; [|done].
    destruct x as [|d x]; [done|].
    cbn in Hh. cbn [String.append].
    by destruct (Ascii.eqb_spec "}" d) as [<-|].
Qed.

(** Two braces, text on one line up to the first [}}]. *)
Lemma match_double (x rest : string) :
  has_char newline x = false → contains "}}" (x +:+ "}") = false →
  match_front PLACEHOLDER_PATTERN ("{{" +:+ x +:+ "}}" +:+ rest) = Some rest.
Proof.
  intros Hn Hc. unfold match_front, PLACEHOLDER_PATTERN.
  pose proof (lazy_star_first_close x rest Hn Hc) as E.
  cbn [String.append run accepts] in *. rewrite Ascii.eqb_refl.
  by rewrite E.
Qed.

(** The lazy run does not get past a newline. *)
Lemma lazy_star_newline {R} (k : string → option R) (y rest : string) :
  (∀ c s, c ≠ "}"%char → k (String c s) = None) →
  has_char "}" y = false → has_char newline y = true →
  lazy_star Dot k (y +:+ rest) = None.
Proof.
  intros Hk Hr Hn. induction y as [|c y IH]; [done|].
  cbn [has_char] in Hr, Hn. apply orb_false_elim in Hr as [Hrc Hr].
  cbn [String.append lazy_star].
  rewrite Hk by (intros ->; by rewrite Ascii.eqb_refl in Hrc).
  cbn [accepts].
  destruct (Ascii.eqb_spec c newline) as [->|Hne]; [done|].
  apply IH; [done|].
  apply orb_prop in Hn as [Hn|Hn]; [|done].
  apply Ascii.eqb_eq in Hn. congruence.
Qed.

(** Two braces around text that holds a newline and no brace: no match at
    the first brace. *)
Lemma match_double_newline (y rest : string) :
  has_char "{" y = false → has_char "}" y = false → has_char newline y = true →
  match_front PLACEHOLDER_PATTERN ("{{" +:+ y +:+ rest) = None.
Proof.
  intros Hl Hr Hn. unfold match_front, PLACEHOLDER_PATTERN.
  assert (lazy_star Dot (λ s, run (Seq (Atom (Chr "}")) (Atom (Chr "}"))) s Some)
            (y +:+ rest) = None) as E.
  { apply lazy_star_newline; [|done..].
    intros c s Hc. cbn [run accepts].
    by destruct (Ascii.eqb_spec "}" c) as [<-|]. }
  cbn [String.append run accepts] in *. rewrite Ascii.eqb_refl.
  rewrite E. cbn. done.
Qed.

End MatchFacts.

(** ** What the guard hands out *)

Module ProtectFacts.
Import Str StrFacts Re ReFacts GuardFacts RestoreFacts MatchFacts.

Lemma sub_scan_char (c : ascii) (s : string) (i : nat) :
  match_front PLACEHOLDER_PATTERN (String c s) = None →
  sub_scan 0 i (String c s)
  = (String c (sub_scan 0 i s).1, (sub_scan 0 i s).2).
Proof.
  intros E. cbn [sub_scan]. rewrite E. by destruct (sub_scan 0 i s).
Qed.

Lemma sub_scan_token (tok rest : string) (i : nat) :
  tok ≠ "" →
  match_front PLACEHOLDER_PATTERN (tok +:+ rest) = Some rest →
  sub_scan 0 i (tok +:+ rest)
  = (marker i +:+ (sub_scan 0 (S i) rest).1, tok :: (sub_scan 0 (S i) rest).2).
Proof.
  intros Hne E. destruct tok as [|c tok]; [done|].
  change (String c tok +:+ rest) with (String c (tok +:+ rest)) in *.
  cbn [sub_scan]. rewrite E.
  replace (String.length (String c (tok +:+ rest)) - String.length rest)%nat
    with (String.length (String c tok))
    by (simpl; rewrite length_app; lia).
  change (String c (tok +:+ rest)) with (String c tok +:+ rest).
  rewrite substring_app.
  replace (String.length (String c tok) - 1)%nat with (String.length tok)
    by (simpl; lia).
  rewrite sub_scan_skip. by destruct (sub_scan 0 (S i) rest).
Qed.

(** Text without an opening brace is copied. *)
Lemma sub_scan_no_brace (p rest : string) (i : nat) :
  has_char "{" p = false →
  sub_scan 0 i (p +:+ rest)
  = (p +:+ (sub_scan 0 i rest).1, (sub_scan 0 i rest).2).
Proof.
  induction p as [|c p IH]; intros Hp;
    [cbn [String.append]; by destruct (sub_scan 0 i rest)|].
  cbn [has_char] in Hp. apply orb_false_elim in Hp as [Hc Hp].
  change (String c p +:+ rest) with (String c (p +:+ rest)).
  rewrite sub_scan_char.
  - by rewrite IH.
  - apply no_match_unless_brace. intros ->. by rewrite Ascii.eqb_refl in Hc.
Qed.

Lemma sub_scan_no_brace_end (q : string) (i : nat) :
  has_char "{" q = false → sub_scan 0 i q = (q, []).
Proof.
  intros Hq. rewrite <- (app_nil_r q) at 1.
  rewrite sub_scan_no_brace by done. simpl. by rewrite app_nil_r.
Qed.

(** One placeholder between two texts without opening braces. *)
Lemma protect_one (p tok q : string) :
  has_char "{" p = false → has_char "{" q = false → tok ≠ "" →
  match_front PLACEHOLDER_PATTERN (tok +:+ q) = Some q →
  protect_placeholders (p +:+ tok +:+ q) = (p +:+ marker 0 +:+ q, [tok]).
Proof.
  intros Hp Hq Hne E. unfold protect_placeholders.
  rewrite sub_scan_no_brace by done.
  rewrite sub_scan_token by done.
  by rewrite sub_scan_no_brace_end.
Qed.

(** With no token handed out, no position had a match. *)
Lemma sub_scan_no_tokens (s : string) (i : nat) :
  (sub_scan 0 i s).2 = [] →
  ∀ u c t, s = u +:+ String c t →
    match_front PLACEHOLDER_PATTERN (String c t) = None.
Proof.
  induction s as [|a s IH]; intros H u c t E.
  - by destruct u.
  - destruct (match_front PLACEHOLDER_PATTERN (String a s)) as [rest|] eqn:Em.
    + exfalso. cbn [sub_scan] in H. rewrite Em in H.
      by destruct (sub_scan _ (S i) s).
    + rewrite sub_scan_char in H by done. simpl in H.
      destruct u as [|b u]; simpl in E.
      * by rewrite <- E.
      * injection E as -> ->. by eapply IH.
Qed.

Lemma markers_cons (i n : nat) : markers i (S n) = marker i :: markers (S i) n.
Proof. done. Qed.

(** The text and the safe text are the same pieces, woven with the tokens
    in one case and with their markers in the other. *)
Lemma scan_weave i s safe toks :
  Scan i s safe toks →
  ∃ pieces,
    length pieces = S (length toks) ∧
    s = weave pieces toks ∧
    safe = weave pieces (markers i (length toks)) ∧
    Forall (lang PLACEHOLDER_PATTERN) toks.
Proof.
  induction 1 as [i|i c s safe toks Hm Hs IH|i tok rest safe toks Hm Hl Hs IH].
  - exists [""]. by split_and!.
  - destruct IH as (pieces & Hlen & -> & -> & Hall).
    destruct pieces as [|p pieces]; [done|].
    exists (String c p :: pieces). split_and!; [done| | |done].
    + by destruct toks.
    + by destruct toks.
  - destruct IH as (pieces & Hlen & -> & -> & Hall).
    exists ("" :: pieces). split_and!.
    + simpl. by rewrite Hlen.
    + done.
    + cbn [length]. rewrite markers_cons. cbn [weave].
      by rewrite <- marker_app.
    + by constructor.
Qed.

(** Text without underscores holds no marker: nothing is put back. *)
Lemma restore_from_plain (text : string) (tokens : list string) :
  has_char "_" text = false → ∀ i, restore_from i text tokens = text.
Proof.
  intros Ht. induction tokens as [|tok tokens IH]; intros i; [done|].
  cbn [restore_from]. rewrite replace_marker.
  rewrite <- (app_nil_r text) at 1. rewrite replace_skip_plain by done.
  simpl. rewrite app_nil_r. apply IH.
Qed.

(** A marker holds no marker of another index. *)
Lemma marker_not_in_marker (i j : nat) :
  i ≠ j → contains (marker j) (marker i) = false.
Proof.
  intros Hij. destruct (contains (marker j) (marker i)) eqn:E; [|done].
  exfalso. apply contains_inv in E as (u & v & E).
  destruct (of_nat_head i) as (x & X' & Ex & Hx).
  destruct (of_nat_head j) as (d & ds & Ed & Hd).
  rewrite (marker_app j) in E. unfold marker in E. rewrite Ed in E.
  eapply (marker_prefix_split u (of_nat i +:+ "__") x (X' +:+ "__") d
            (ds +:+ "__" +:+ v)) in E as [[-> E]|[u' E]];
    [| |by rewrite Ex|done].
  - change (String d (ds +:+ "__" +:+ v)) with (String d ds +:+ "__" +:+ v) in E.
    rewrite <- Ed in E.
    apply digits_sep_inj, of_nat_inj in E; [done|apply of_nat_digits..].
  - rewrite <- (app_nil_r "__") in E.
    apply digits_then_marker in E as [[u'' E]|[E|E]];
      [| | |apply of_nat_digits|done]; try done.
    by destruct u''.
Qed.

End ProtectFacts.

(** ** Walks under a cache that is already filled *)

Module WalkFacts.
Import GuardFacts RestoreFacts TreeFacts LeafFacts.

Lemma all_leaves_list (P : string → Prop) l :
  all_leaves P (JList l) ↔ Forall (all_leaves P) l.
Proof.
  induction l as [|x l IH]; simpl in *.
  - split; [constructor | done].
  - rewrite Forall_cons. by rewrite <- IH.
Qed.

Lemma all_leaves_dict (P : string → Prop) items :
  all_leaves P (JDict items) ↔ Forall (λ kv, all_leaves P kv.2) items.
Proof.
  induction items as [|[k x] items IH]; simpl in *.
  - split; [constructor | done].
  - rewrite Forall_cons. by rewrite <- IH.
Qed.

(** Related leaf by leaf through equality: the same document. *)
Lemma leafwise_eq v : ∀ v', leafwise (λ s r, r = s) v v' → v' = v.
Proof.
  induction v as [| | | |s|l IH|items IH] using json_nested_ind; intros v' H;
    inversion H as [| | | |? ? Hs|? l' Hl|? items' Hi]; subst; try done.
  - f_equal. clear H. induction Hl as [|x x' l l' Hx _ IHl]; [done|].
    inversion IH; subst. f_equal; auto.
  - f_equal. clear H. induction Hi as [|[k x] [k' x'] l l' [Hk Hx] _ IHl]; [done|].
    inversion IH; subst. simpl in *. subst. f_equal; [f_equal|]; auto.
Qed.

Section Filled.
Context {W : Type} (tr : translator W).
Implicit Types (st : state W) (v : json).

(** A leaf that is cached costs nothing; so does a document of such leaves. *)
Lemma list_comprehension_cached l l' st :
  Forall2 (λ v v', translate_value tr v st = (v', st)) l l' →
  list_comprehension (translate_value tr) l st = (l', st).
Proof.
  induction 1 as [|v v' l l' Hv _ IH]; simpl; [done|]. by rewrite Hv, IH.
Qed.

Lemma dict_comprehension_cached items items' st :
  Forall2 (λ kv kv', kv.1 = kv'.1 ∧ translate_value tr kv.2 st = (kv'.2, st))
    items items' →
  ∀ acc, NoDup (Dict.keys acc ++ Dict.keys items) →
    dict_comprehension (translate_value tr) items acc st = (acc ++ items', st).
Proof.
  induction 1 as [|[k v] [k' v'] items items' [Hk Hv] _ IH]; intros acc Hnd;
    simpl in *; subst.
  - by rewrite List.app_nil_r.
  - rewrite Hv.
    assert (k' ∉ Dict.keys acc) as Hk.
    { apply NoDup_app in Hnd as (_ & Hd & _). intros Hin.
      apply (Hd _ Hin). apply list_elem_of_here. }
    rewrite (set_fresh acc k' v' Hk), IH.
    + by rewrite <- List.app_assoc.
    + unfold Dict.keys in *. rewrite fmap_app, <- List.app_assoc. done.
Qed.

Lemma translate_value_cached v :
  wf_json v →
  ∀ v' st, leafwise (cached tr st) v v' → translate_value tr v st = (v', st).
Proof.
  induction v as [| | | |s|l IH|items IH] using json_nested_ind;
    intros Hwf v' st H;
    inversion H as [| | | |? ? Hs|? l' Hl|? items' Hi]; subst; try done.
  - simpl. by rewrite (translate_str_hit tr s st _ Hs).
  - apply wf_list in Hwf. simpl.
    rewrite (list_comprehension_cached l l' st); [done|].
    clear H. induction Hl as [|x x' l l' Hx _ IHl]; constructor;
      inversion IH; inversion Hwf; subst; auto.
  - apply wf_dict in Hwf as [Hnd Hwf]. simpl.
    rewrite (dict_comprehension_cached items items' st); [done| |done].
    clear H Hnd. induction Hi as [|x x' l l' [Hk Hx] _ IHl]; constructor;
      inversion IH; inversion Hwf; subst; auto.
Qed.

(** *** A service that echoes or is down *)

Lemma translate_str_echo value st :
  echoes tr → clean value → identity_cache tr st →
  (translate_str tr value st).1 = value ∧
  identity_cache tr (translate_str tr value st).2.
Proof.
  intros Hecho Hclean Hid. unfold translate_str.
  destruct (cache st !! (value, target tr)) as [hit|] eqn:Hc; simpl.
  - split; [by apply Hid | done].
  - pose proof (roundtrip_of_clean value Hclean) as Hrt. unfold roundtrip in Hrt.
    destruct (protect_placeholders value) as [safe tokens].
    specialize (Hecho safe (world st)).
    destruct (translate tr safe (world st)) as [[t|exc] w']; simpl in *;
      rewrite ?Hecho, Hrt; (split; [done|]);
      intros s r; simpl; rewrite lookup_insert;
      case_decide; naive_solver.
Qed.

Lemma list_comprehension_identity l :
  Forall (λ v, ∀ st, identity_cache tr st →
                 identity_cache tr (translate_value tr v st).2) l →
  ∀ st, identity_cache tr st →
    identity_cache tr (list_comprehension (translate_value tr) l st).2.
Proof.
  induction 1 as [|v l Hv _ IH]; intros st Hid; simpl; [done|].
  specialize (Hv st Hid). destruct (translate_value tr v st) as [v' st1].
  specialize (IH st1 Hv).
  by destruct (list_comprehension (translate_value tr) l st1).
Qed.

Lemma dict_comprehension_identity items :
  Forall (λ kv, ∀ st, identity_cache tr st →
                  identity_cache tr (translate_value tr kv.2 st).2) items →
  ∀ acc st, identity_cache tr st →
    identity_cache tr (dict_comprehension (translate_value tr) items acc st).2.
Proof.
  induction 1 as [|[k v] items Hv _ IH]; intros acc st Hid; simpl; [done|].
  specialize (Hv st Hid). simpl in Hv.
  destruct (translate_value tr v st) as [v' st1]. by apply IH.
Qed.

Lemma translate_value_identity v :
  echoes tr → all_leaves clean v →
  ∀ st, identity_cache tr st → identity_cache tr (translate_value tr v st).2.
Proof.
  intros Hecho.
  induction v as [| | | |s|l IH|items IH] using json_nested_ind;
    intros Hv st Hid; try done.
  - simpl. pose proof (translate_str_echo s st Hecho Hv Hid) as [_ H].
    by destruct (translate_str tr s st).
  - apply all_leaves_list in Hv. simpl.
    pose proof (list_comprehension_identity l) as H.
    specialize (H ltac:(rewrite Forall_forall in *; auto) st Hid).
    by destruct (list_comprehension _ l st).
  - apply all_leaves_dict in Hv. simpl.
    pose proof (dict_comprehension_identity items) as H.
    specialize (H ltac:(rewrite Forall_forall in *; auto) [] st Hid).
    by destruct (dict_comprehension _ items [] st).
Qed.
End Filled.

End WalkFacts.

(** ** Whole runs *)

Module DriverFacts.
Import TreeFacts MainFacts.

Lemma bundled_identity code lang :
  Dict.get BUNDLED_LANGS code = Some lang → lang = code.
Proof.
  unfold BUNDLED_LANGS. cbn [Dict.get]. repeat case_decide; naive_solver.
Qed.

Lemma set_diagonal (d : list (string * string)) k :
  Forall (λ kv, kv.2 = kv.1) d → Forall (λ kv, kv.2 = kv.1) (Dict.set d k k).
Proof.
  induction 1 as [|[k' v'] d Hk Hd IH]; cbn [Dict.set].
  - by repeat constructor.
  - case_decide; constructor; simpl in *; subst; auto.
Qed.

(** The chosen languages carry the code of their locale. *)
Lemma select_langs_diagonal codes :
  ∀ acc chosen, Forall (λ kv, kv.2 = kv.1) acc →
    select_langs codes acc = inr chosen → Forall (λ kv, kv.2 = kv.1) chosen.
Proof.
  induction codes as [|code codes IH]; intros acc chosen Hacc; cbn [select_langs].
  - by intros [= <-].
  - destruct (Dict.get BUNDLED_LANGS code) as [lang|] eqn:E; [|done].
    apply bundled_identity in E as ->. apply IH. by apply set_diagonal.
Qed.

Lemma diagonal_values (d : list (string * string)) :
  Forall (λ kv, kv.2 = kv.1) d → d.*2 = d.*1.
Proof. induction 1 as [|[k v] d Hk _ IH]; csimpl in *; by f_equal. Qed.

(** Codes given once each are chosen in the order they were given. *)
Lemma select_langs_keys codes :
  Forall supported codes →
  ∀ acc, NoDup (Dict.keys acc ++ codes) →
    ∃ chosen, select_langs codes acc = inr chosen ∧
      Dict.keys chosen = Dict.keys acc ++ codes.
Proof.
  induction 1 as [|code codes Hc _ IH]; intros acc Hnd; cbn [select_langs].
  - exists acc. by rewrite List.app_nil_r.
  - apply mem_get in Hc as [lang Hl]. rewrite Hl.
    assert (code ∉ Dict.keys acc) as Hk.
    { apply NoDup_app in Hnd as (_ & Hd & _). intros Hin.
      apply (Hd _ Hin). apply list_elem_of_here. }
    destruct (IH (Dict.set acc code lang)) as (chosen & E & Hkeys).
    { rewrite keys_set, decide_False by done. by rewrite <- List.app_assoc. }
    exists chosen. split; [done|].
    rewrite Hkeys, keys_set, decide_False by done. by rewrite <- List.app_assoc.
Qed.

Lemma unsupported_none codes :
  filter (λ c, Dict.mem c BUNDLED_LANGS = false) codes = [] →
  Forall supported codes.
Proof.
  intros E. apply Forall_forall. intros x Hx. unfold supported.
  destruct (Dict.mem x BUNDLED_LANGS) eqn:Ex; [done|].
  by destruct (filter_nil_not_elem_of _ _ x E Ex).
Qed.

Section Runs.
Context {W : Type} (service : string → string → W → reply * W).
Context (e : env) (a : args).

(** The calls of one walk all go to the walk's own target. *)
Lemma walk_calls (tr : translator W) (st st' : state W) new lang S :
  (∀ value, (call_count (target tr) value new <= 1)%nat) →
  (∀ t value safe, Call t value safe ∈ new → t = target tr ∧
     safe = (protect_placeholders value).1 ∧
     cache st !! (value, target tr) = None ∧
     is_Some (cache st' !! (value, target tr))) →
  (call_count lang S new <= if decide (lang = target tr) then 1 else 0)%nat.
Proof.
  intros Hn He. case_decide as Hl; [subst; apply Hn|].
  destruct (call_count lang S new) as [|n] eqn:E; [lia|]. exfalso.
  destruct (call_count_pos lang S new) as [safe H]; [lia|].
  apply He in H as [? _]. done.
Qed.

(** Over a run, every language sees a leaf at most once more. *)
Lemma translate_all_calls doc targets :
  NoDup targets.*2 →
  ∀ w tr lang S,
    (call_count lang S (translate_all service e a doc targets w tr).2
     <= call_count lang S tr + if decide (lang ∈ targets.*2) then 1 else 0)%nat.
Proof.
  induction targets as [|[locale l] targets IH]; intros Hnd w tr lang S;
    cbn [translate_all].
  - cbn [snd]. rewrite call_count_app. simpl. lia.
  - apply NoDup_cons in Hnd as [Hl Hnd].
    pose proof (translate_value_run (Translator l (service l)) doc
                  (State ∅ w (tr ++ [Print ("Translating locale '" +:+ locale +:+ "'...")])))
      as (_ & new & Ht & _ & Hn & He).
    pose proof (walk_calls _ _ _ new lang S Hn He) as Hnew.
    destruct (translate_value _ doc _) as [translated st]. simpl in Ht, Hnew.
    assert (call_count lang S (trace st)
            <= call_count lang S tr + if decide (lang = l) then 1 else 0)%nat as Hst.
    { rewrite Ht, !call_count_app. simpl. lia. }
    clear Hn He Hnew Ht new.
    assert ((if decide (lang ∈ ((locale, l) :: targets).*2) then 1 else 0)
            = (if decide (lang = l) then 1 else 0)
              + (if decide (lang ∈ targets.*2) then 1 else 0))%nat as ->.
    { csimpl. destruct (decide (lang = l)) as [->|Hne].
      - rewrite decide_True by apply list_elem_of_here.
        by rewrite decide_False.
      - destruct (decide (lang ∈ targets.*2)) as [Hin|Hin].
        + rewrite decide_True; [done|by apply list_elem_of_further].
        + rewrite decide_False; [done|]. by intros [?|?]%elem_of_cons. }
    destruct (write_ok e (output_dir a) (locale +:+ ".json")).
    + etrans; [apply IH; done|]. rewrite call_count_app. simpl. lia.
    + cbn [snd]. lia.
Qed.

(** A file that cannot be written ends the run where it stands. *)
Lemma translate_all_write_fails doc pre locale lang post :
  (∀ c, c ∈ Dict.keys pre → write_ok e (output_dir a) (c +:+ ".json") = true) →
  write_ok e (output_dir a) (locale +:+ ".json") = false →
  ∀ w tr,
    (translate_all service e a doc (pre ++ (locale, lang) :: post) w tr).1.1
    = Failed (FsError (locale +:+ ".json")) ∧
    written (translate_all service e a doc (pre ++ (locale, lang) :: post) w tr).2
    = written tr ++ (file_of a <$> Dict.keys pre).
Proof.
  intros Hpre Hloc. induction pre as [|[c l] pre IH]; intros w tr; csimpl.
  - pose proof (translate_value_run (Translator lang (service lang)) doc
                  (State ∅ w (tr ++ [Print ("Translating locale '" +:+ locale +:+ "'...")])))
      as (_ & new & Ht & Hs & _).
    destruct (translate_value _ doc _) as [translated st]. simpl in Ht.
    rewrite Hloc. split; [done|]. cbn [snd].
    rewrite Ht, !written_app, (written_service new Hs). simpl.
    by rewrite !List.app_nil_r.
  - pose proof (translate_value_run (Translator l (service l)) doc
                  (State ∅ w (tr ++ [Print ("Translating locale '" +:+ c +:+ "'...")])))
      as (_ & new & Ht & Hs & _).
    destruct (translate_value _ doc _) as [translated st]. simpl in Ht.
    rewrite (Hpre c) by apply list_elem_of_here.
    destruct (IH (λ x Hx, Hpre x (list_elem_of_further _ _ _ Hx)) (world st)
                (trace st ++ [WriteFile (output_dir a) (c +:+ ".json") translated]))
      as [H1 H2].
    split; [done|]. rewrite H2, Ht, !written_app, (written_service new Hs).
    simpl. by rewrite !List.app_nil_r, <- List.app_assoc.
Qed.
End Runs.

End DriverFacts.

(** * Further properties of the code *)

Import MatchFacts ProtectFacts WalkFacts DriverFacts.

(** ** [protect_placeholders] and [restore_placeholders] *)

(** X1: the text and its safe text are built from the same pieces: the text
    has the tokens between them, in order, and the safe text has the markers
    [__TOKEN_0__], [__TOKEN_1__], ... in their places; every token is a word
    of the placeholder pattern. *)
Theorem protect_weaves (text : string) :
  ∃ pieces,
    length pieces = (length (protect_placeholders text).2 + 1)%nat ∧
    text = weave pieces (protect_placeholders text).2 ∧
    (protect_placeholders text).1
    = weave pieces (markers 0 (length (protect_placeholders text).2)) ∧
    Forall (Re.lang PLACEHOLDER_PATTERN) (protect_placeholders text).2.
Proof.
  destruct (scan_weave _ _ _ _ (protect_Scan text)) as (pieces & Hl & ? & ? & ?).
  exists pieces. split_and!; [lia|done..].
Qed.

(** X2: a placeholder anywhere in the text is not missed: at least one token
    is handed out. *)
Theorem placeholder_found (u m v : string) :
  Re.lang PLACEHOLDER_PATTERN m →
  (protect_placeholders (u +:+ m +:+ v)).2 ≠ [].
Proof.
  intros Hm Hnil. destruct (placeholder_head m Hm) as [m' ->].
  destruct (match_front_complete _ _ v Hm) as [rest E].
  change (String "{" m' +:+ v) with (String "{" (m' +:+ v)) in *.
  by rewrite (sub_scan_no_tokens _ 0 Hnil u "{" (m' +:+ v) eq_refl) in E.
Qed.

Lemma placeholder_found_witness :
  (protect_placeholders ("Hi " +:+ "{name}" +:+ "!")).2 ≠ [].
Proof.
  apply placeholder_found. right.
  exists "{", "name}". split_and!; [done|by exists "{"%char|].
  exists "name", "}". split; [done|]. split; [|by exists "}"%char].
  split; [done|]. simpl. by repeat split.
Defined.

(** X3: between texts without an opening brace, a single-brace placeholder
    whose content is not empty and holds no brace becomes the one token. *)
Theorem single_brace_protected (p y q : string) :
  Str.has_char "{" p = false → Str.has_char "{" q = false →
  y ≠ "" → Str.has_char "{" y = false → Str.has_char "}" y = false →
  protect_placeholders (p +:+ ("{" +:+ y +:+ "}") +:+ q)
  = (p +:+ marker 0 +:+ q, ["{" +:+ y +:+ "}"]).
Proof.
  intros Hp Hq Hne Hl Hr. apply protect_one; [done..|].
  pose proof (match_single y q Hne Hl Hr) as E.
  cbn [String.append] in *. by rewrite StrFacts.app_assoc.
Qed.

Lemma single_brace_protected_witness :
  protect_placeholders ("You have " +:+ ("{" +:+ "count" +:+ "}") +:+ " bids}")
  = ("You have " +:+ marker 0 +:+ " bids}", ["{" +:+ "count" +:+ "}"]).
Proof. by apply single_brace_protected. Defined.

(** X4: a double-brace placeholder ends at the first [}}]: when its content
    has no newline and [}}] does not show up before the closing pair, the
    whole of it becomes the one token, braces inside included. *)
Theorem double_brace_protected (p x q : string) :
  Str.has_char "{" p = false → Str.has_char "{" q = false →
  Str.has_char Re.newline x = false → Str.contains "}}" (x +:+ "}") = false →
  protect_placeholders (p +:+ ("{{" +:+ x +:+ "}}") +:+ q)
  = (p +:+ marker 0 +:+ q, ["{{" +:+ x +:+ "}}"]).
Proof.
  intros Hp Hq Hn Hc. apply protect_one; [done..|].
  pose proof (match_double x q Hn Hc) as E.
  cbn [String.append] in *. by rewrite StrFacts.app_assoc.
Qed.

Lemma double_brace_protected_witness :
  protect_placeholders ("Dear " +:+ ("{{" +:+ "user.{first} name" +:+ "}}") +:+ ", hi}}")
  = ("Dear " +:+ marker 0 +:+ ", hi}}", ["{{" +:+ "user.{first} name" +:+ "}}"]).
Proof. by apply double_brace_protected. Defined.

(** X5: a double-brace placeholder whose content runs over a line break (and
    holds no brace) is not taken as a whole: the inner single-brace form is
    the token, and the outer braces stay in the safe text. *)
Theorem double_brace_newline_split (p y q : string) :
  Str.has_char "{" p = false → Str.has_char "{" q = false →
  Str.has_char "{" y = false → Str.has_char "}" y = false →
  Str.has_char Re.newline y = true →
  protect_placeholders (p +:+ "{" +:+ ("{" +:+ y +:+ "}") +:+ "}" +:+ q)
  = (p +:+ "{" +:+ marker 0 +:+ "}" +:+ q, ["{" +:+ y +:+ "}"]).
Proof.
  intros Hp Hq Hl Hr Hn. unfold protect_placeholders.
  assert (y ≠ "") as Hne by (by intros ->).
  rewrite sub_scan_no_brace by done.
  change ("{" +:+ ("{" +:+ y +:+ "}") +:+ "}" +:+ q)
    with (String "{" (("{" +:+ y +:+ "}") +:+ "}" +:+ q)).
  rewrite sub_scan_char.
  - rewrite sub_scan_token.
    + rewrite sub_scan_no_brace_end by (simpl; done). done.
    + done.
    + pose proof (match_single y ("}" +:+ q) Hne Hl Hr) as E.
      cbn [String.append] in *. by rewrite StrFacts.app_assoc.
  - pose proof (match_double_newline y ("}}" +:+ q) Hl Hr Hn) as E.
    cbn [String.append] in *. by rewrite StrFacts.app_assoc.
Qed.

Lemma double_brace_newline_split_witness :
  protect_placeholders
    ("a " +:+ "{" +:+ ("{" +:+ String "x" (String Re.newline "y") +:+ "}") +:+ "}" +:+ " b")
  = ("a " +:+ "{" +:+ marker 0 +:+ "}" +:+ " b",
     ["{" +:+ String "x" (String Re.newline "y") +:+ "}"]).
Proof. by apply double_brace_newline_split. Defined.

(** X6: a translated text in which no marker is left (it has no underscore)
    is returned as it is: the tokens are dropped, nothing is raised. *)
Theorem restore_without_markers (text : string) (tokens : list string) :
  Str.has_char "_" text = false → restore_placeholders text tokens = text.
Proof. intros H. by apply restore_from_plain. Qed.

Lemma restore_without_markers_witness :
  restore_placeholders "Bonjour le monde" ["{{name}}"; "{count}"]
  = "Bonjour le monde".
Proof. by apply restore_without_markers. Defined.

(** X7: markers of different indexes do not overlap, whatever the number of
    digits: putting back the token of one index leaves the marker of another
    index alone. *)
Theorem markers_do_not_overlap (i j : nat) (tok : string) :
  i ≠ j → Str.replace (marker j) tok (marker i) = marker i.
Proof.
  intros Hij. rewrite replace_marker.
  by apply replace_scan_absent, marker_not_in_marker.
Qed.

Lemma markers_do_not_overlap_witness :
  Str.replace (marker 1) "{x}" (marker 11) = marker 11.
Proof. by apply markers_do_not_overlap. Defined.

(** X8: a marker whose index is not below the number of tokens is left in
    the text. *)
Theorem restore_index_out_of_range (i : nat) (tokens : list string) :
  (length tokens <= i)%nat → restore_placeholders (marker i) tokens = marker i.
Proof.
  intros Hlen. unfold restore_placeholders.
  assert (∀ j, (j + length tokens <= i)%nat →
               restore_from j (marker i) tokens = marker i) as H.
  { clear Hlen. induction tokens as [|tok tokens IH]; intros j Hj; [done|].
    cbn [restore_from]. rewrite replace_marker.
    rewrite replace_scan_absent.
    - apply IH. simpl in Hj. lia.
    - apply marker_not_in_marker. simpl in Hj. lia. }
  apply H. lia.
Qed.

Lemma restore_index_out_of_range_witness :
  restore_placeholders (marker 2) ["{a}"; "{b}"] = marker 2.
Proof. apply restore_index_out_of_range. simpl. lia. Defined.

(** ** [translate_value] *)

(** X9: a walk never drops or changes an entry of the cache, whatever its key. *)
Theorem cache_entries_kept {W} (tr : translator W) (v : json) (st : state W)
    (key : string * string) (r : string) :
  cache st !! key = Some r → cache (translate_value tr v st).2 !! key = Some r.
Proof.
  intros H. destruct (translate_value_run tr v st) as [Hsub _].
  by eapply lookup_weaken.
Qed.

Lemma cache_entries_kept_witness :
  cache (translate_value (shouting "de") (JList [JStr "Bid"; JStr "Lot {id}"])
           (State {[ ("Bid", "de") := "Gebot"; ("Bid", "fr") := "Offre" ]} tt [])).2
    !! ("Bid", "fr") = Some "Offre".
Proof. apply cache_entries_kept. by vm_compute. Defined.

(** X10: when the service only ever fails or hands the text back, a
    document whose strings are free of [TOKEN_] comes out as it went in. *)
Theorem echo_keeps_document {W} (tr : translator W) (v : json) (st : state W) :
  echoes tr → wf_json v → all_leaves clean v → identity_cache tr st →
  (translate_value tr v st).1 = v.
Proof.
  intros Hecho Hwf Hv Hid. apply leafwise_eq.
  eapply leafwise_mono; [|by apply translate_value_leaves].
  intros s r H. by apply (translate_value_identity tr v Hecho Hv st Hid).
Qed.

Lemma echo_keeps_document_witness :
  (translate_value (failing "ko")
     (JDict [("title", JStr "Lot {{id}}"); ("steps", JList [JStr "Bid {n}"; JInt 2])])
     (fresh tt)).1
  = JDict [("title", JStr "Lot {{id}}"); ("steps", JList [JStr "Bid {n}"; JInt 2])].
Proof.
  apply echo_keeps_document.
  - by intros text w.
  - simpl. split_and!; try done. apply (bool_decide_unpack _). vm_compute. exact I.
  - simpl. by split_and!.
  - intros s r H. unfold fresh in H. cbn [cache] in H.
    by rewrite lookup_empty in H.
Defined.

(** X11: walking a document again with the state the first walk left gives
    the same result and leaves the state as it is: no call, no warning. *)
Theorem second_walk_free {W} (tr : translator W) (v : json) (st : state W) :
  wf_json v →
  translate_value tr v (translate_value tr v st).2 = translate_value tr v st.
Proof.
  intros Hwf. pose proof (translate_value_leaves tr v Hwf st) as H.
  destruct (translate_value tr v st) as [v1 st1].
  by apply translate_value_cached.
Qed.

Lemma second_walk_free_witness :
  translate_value (failing "ja") (JList [JStr "Lot {id}"; JStr "Bid"])
    (translate_value (failing "ja") (JList [JStr "Lot {id}"; JStr "Bid"]) (fresh tt)).2
  = translate_value (failing "ja") (JList [JStr "Lot {id}"; JStr "Bid"]) (fresh tt).
Proof. apply second_walk_free. simpl. by split_and!. Defined.

(** ** [main] *)

(** X12: without [--langs], and with the file system going along, the run
    writes one file for each of the eight configured locales, in the order
    they are configured. *)
Theorem default_all_locales {W} (service : string → string → W → reply * W)
    (e : env) (a : args) (w : W) (doc : json) :
  langs a = None →
  load_source e (source a) = Some doc →
  mkdir_ok e (output_dir a) = true →
  (∀ name, write_ok e (output_dir a) name = true) →
  (main service e a w).1.1 = Completed ∧
  written (main service e a w).2
  = file_of a <$> ["pl"; "de"; "fr"; "it"; "nl"; "ar"; "ja"; "ko"].
Proof.
  intros Hl Hload Hmk Hwr. unfold main. rewrite Hl, Hload, Hmk.
  destruct (translate_all_writes service e a doc BUNDLED_LANGS Hwr w
              [OpenRead (source a); Mkdir (output_dir a)]) as [H1 H2].
  split; [done|]. by rewrite H2.
Qed.

Lemma default_all_locales_witness :
  let e := Env (λ _, Some (JStr "Bid {n}")) (λ _, true) (λ _ _, true) in
  let run := main (λ lang, translate (shouting lang)) e
               (Args "en.default.json" "locales" None) tt in
  run.1.1 = Completed ∧
  written run.2
  = file_of (Args "en.default.json" "locales" None)
      <$> ["pl"; "de"; "fr"; "it"; "nl"; "ar"; "ja"; "ko"].
Proof.
  intros e run.
  by apply (default_all_locales _ e (Args "en.default.json" "locales" None) tt
              (JStr "Bid {n}")).
Defined.

(** X13: with [--langs] naming configured locales, each once, the files are
    written in the order the codes were given. *)
Theorem files_in_requested_order {W} (service : string → string → W → reply * W)
    (e : env) (a : args) (w : W) (codes : list string) (doc : json) :
  langs a = Some codes → codes ≠ [] → NoDup codes → Forall supported codes →
  load_source e (source a) = Some doc →
  mkdir_ok e (output_dir a) = true →
  (∀ name, write_ok e (output_dir a) name = true) →
  written (main service e a w).2 = file_of a <$> codes.
Proof.
  intros Hl Hne Hnd Hsup Hload Hmk Hwr. unfold main. rewrite Hl.
  destruct codes as [|c cs]; [done|].
  replace (filter _ (c :: cs)) with (@nil string).
  2:{ symmetry. clear -Hsup. induction Hsup as [|x l Hx _ IH]; [done|].
      rewrite filter_cons_False; [done|]. unfold supported in Hx. congruence. }
  destruct (select_langs_keys (c :: cs) Hsup []) as (chosen & -> & Hkeys); [done|].
  rewrite Hload, Hmk.
  destruct (translate_all_writes service e a doc chosen Hwr w
              [OpenRead (source a); Mkdir (output_dir a)]) as [_ H2].
  by rewrite H2, Hkeys.
Qed.

Lemma files_in_requested_order_witness :
  written (main (λ lang, translate (shouting lang))
             (Env (λ _, Some (JStr "Bid {n}")) (λ _, true) (λ _ _, true))
             (Args "en.default.json" "locales" (Some ["ja"; "de"; "pl"])) tt).2
  = file_of (Args "en.default.json" "locales" (Some ["ja"; "de"; "pl"]))
      <$> ["ja"; "de"; "pl"].
Proof.
  apply (files_in_requested_order _ _ _ tt ["ja"; "de"; "pl"] (JStr "Bid {n}"));
    try done.
  - apply (bool_decide_unpack _). vm_compute. exact I.
  - by repeat constructor.
Defined.

(** X14: when the source cannot be loaded or the output directory cannot be
    made, the run fails without a file written and without a call to the
    service. *)
Theorem no_output_without_input {W} (service : string → string → W → reply * W)
    (e : env) (a : args) (w : W) (lang leaf : string) :
  load_source e (source a) = None ∨ mkdir_ok e (output_dir a) = false →
  (∃ err, (main service e a w).1.1 = Failed err) ∧
  (main service e a w).1.2 = w ∧
  written (main service e a w).2 = [] ∧
  call_count lang leaf (main service e a w).2 = 0%nat.
Proof.
  intros H. unfold main.
  destruct (match langs a with Some (c :: cs) => _ | _ => _ end) as [err|chosen];
    [by eauto|].
  destruct (load_source e (source a)) as [doc|]; [|by eauto].
  destruct H as [H|H]; [done|]. rewrite H. by eauto.
Qed.

Lemma no_output_without_input_witness :
  let run := main (λ lang, translate (shouting lang))
               (Env (λ _, None) (λ _, true) (λ _ _, true))
               (Args "missing.json" "locales" (Some ["de"])) tt in
  (∃ err, run.1.1 = Failed err) ∧ run.1.2 = tt ∧ written run.2 = [] ∧
  call_count "de" "Bid" run.2 = 0%nat.
Proof.
  intros run.
  apply (no_output_without_input (λ lang, translate (shouting lang))
           (Env (λ _, None) (λ _, true) (λ _ _, true))
           (Args "missing.json" "locales" (Some ["de"])) tt "de" "Bid").
  by left.
Defined.

(** X15: a file that cannot be written stops the run: the locales before it
    have their files, the locales after it are not written. *)
Theorem write_failure_stops_run {W} (service : string → string → W → reply * W)
    (e : env) (a : args) (w : W) (pre : list string) (locale : string)
    (post : list string) (doc : json) :
  langs a = Some (pre ++ locale :: post) →
  NoDup (pre ++ locale :: post) → Forall supported (pre ++ locale :: post) →
  load_source e (source a) = Some doc →
  mkdir_ok e (output_dir a) = true →
  (∀ c, c ∈ pre → write_ok e (output_dir a) (c +:+ ".json") = true) →
  write_ok e (output_dir a) (locale +:+ ".json") = false →
  (main service e a w).1.1 = Failed (FsError (locale +:+ ".json")) ∧
  written (main service e a w).2 = file_of a <$> pre.
Proof.
  intros Hl Hnd Hsup Hload Hmk Hpre Hloc. unfold main. rewrite Hl.
  destruct (pre ++ locale :: post) as [|c cs] eqn:Ecodes; [by destruct pre|].
  replace (filter _ (c :: cs)) with (@nil string).
  2:{ symmetry. clear -Hsup. induction Hsup as [|x l Hx _ IH]; [done|].
      rewrite filter_cons_False; [done|]. unfold supported in Hx. congruence. }
  destruct (select_langs_keys (c :: cs) Hsup []) as (chosen & -> & Hkeys); [done|].
  rewrite Hload, Hmk. simpl in Hkeys. rewrite <- Ecodes in Hkeys.
  unfold Dict.keys in Hkeys.
  apply fmap_app_inv in Hkeys as (cpre & crest & -> & Hrest & ->).
  symmetry in Hrest.
  apply fmap_cons_inv in Hrest as ([loc lang] & cpost & -> & -> & ->).
  destruct (translate_all_write_fails service e a doc cpre loc lang cpost Hpre Hloc
              w [OpenRead (source a); Mkdir (output_dir a)]) as [H1 H2].
  split; [done|]. by rewrite H2.
Qed.

Lemma write_failure_stops_run_witness :
  let e := Env (λ _, Some (JStr "Bid {n}")) (λ _, true)
               (λ _ name, negb (String.eqb name "fr.json")) in
  let a := Args "en.default.json" "locales" (Some (["de"] ++ "fr" :: ["it"])) in
  let run := main (λ lang, translate (shouting lang)) e a tt in
  run.1.1 = Failed (FsError ("fr" +:+ ".json")) ∧
  written run.2 = file_of a <$> ["de"].
Proof.
  intros e a run.
  apply (write_failure_stops_run (λ lang, translate (shouting lang)) e a tt
           ["de"] "fr" ["it"] (JStr "Bid {n}"));
    try done.
  - apply (bool_decide_unpack _). vm_compute. exact I.
  - by repeat constructor.
  - by intros c ->%list_elem_of_singleton.
Defined.

(** X16: in a whole run, whatever the arguments and the file system, the
    service of a language is called at most once for a given leaf. *)
Theorem leaf_sent_once_per_language {W}
    (service : string → string → W → reply * W)
    (e : env) (a : args) (w : W) (lang leaf : string) :
  (call_count lang leaf (main service e a w).2 <= 1)%nat.
Proof.
  unfold main.
  assert (∀ chosen : error + list (string * string),
            (∀ l, chosen = inr l → NoDup l.*2) →
            (call_count lang leaf
               (match chosen with
                | inl err => (Failed err, w, [])
                | inr target_langs =>
                    match load_source e (source a) with
                    | None => (Failed (InputError (source a)), w, [OpenRead (source a)])
                    | Some source_data =>
                        if mkdir_ok e (output_dir a)
                        then translate_all service e a source_data target_langs w
                               [OpenRead (source a); Mkdir (output_dir a)]
                        else (Failed (FsError (output_dir a)), w,
                              [OpenRead (source a); Mkdir (output_dir a)])
                    end
                end).2 <= 1)%nat) as Hrun.
  { intros [err|l] Hnd; simpl; [lia|].
    destruct (load_source e (source a)) as [doc|]; simpl; [|lia].
    destruct (mkdir_ok e (output_dir a)); simpl; [|lia].
    etrans; [apply translate_all_calls; by apply Hnd|].
    simpl. case_decide; lia. }
  apply Hrun. intros l Hl.
  assert (NoDup (BUNDLED_LANGS).*2) as Hb
    by (apply (bool_decide_unpack _); vm_compute; exact I).
  destruct (langs a) as [[|c cs]|]; [by injection Hl as <-| |by injection Hl as <-].
  destruct (filter _ (c :: cs)) as [|m ms] eqn:Em; [|done].
  apply unsupported_none in Em.
  destruct (select_langs_spec (c :: cs) Em []) as (chosen & E & Hnd & _);
    [constructor|].
  rewrite E in Hl. injection Hl as <-.
  rewrite (diagonal_values chosen); [done|].
  eapply select_langs_diagonal; [|done]. constructor.
Qed.
